(** * titan/db/set.go: the set data type over a transactional key-value store

    A shallow embedding of [db/set.go] and the properties of its operations
    ([GetSet], [SAdd], [SRem], [SPop], [SMove], the metadata codec).  Byte
    strings are lists of byte values, [int64] counters are integers with the
    wrap-around written out, the transaction is a finite map with a fault
    table, and the methods of a [*Set] thread the handle and the world through
    a small state-and-error monad. *)

From Stdlib Require Import ZArith Lia.
From stdpp Require Import base option list gmap sets sorting.

Local Open Scope Z_scope.

(** ** Byte strings *)

(** A [[]byte]: each element is a byte value in [0, 256). *)
Abbreviation bytes := (list Z).

(** [bytes.Compare]: byte-wise lexicographic comparison, the order in which
    the store iterates over its keys. *)
Fixpoint bytes_compare (a b : bytes) : comparison :=
  match a, b with
  | [], [] => Eq
  | [], _ :: _ => Lt
  | _ :: _, [] => Gt
  | x :: a', y :: b' =>
      match Z.compare x y with
      | Eq => bytes_compare a' b'
      | c => c
      end
  end.

Definition bytes_leb (a b : bytes) : bool :=
  match bytes_compare a b with Gt => false | _ => true end.

Definition bytes_ltb (a b : bytes) : bool :=
  match bytes_compare a b with Lt => true | _ => false end.

Definition bytes_le (a b : bytes) : Prop := bytes_leb a b = true.
Definition bytes_lt (a b : bytes) : Prop := bytes_ltb a b = true.

Global Instance bytes_le_dec a b : Decision (bytes_le a b).
Proof. unfold bytes_le. apply _. Defined.

(** [kv.Key.HasPrefix] / [bytes.HasPrefix]. *)
Fixpoint HasPrefix (k prefix : bytes) {struct prefix} : bool :=
  match prefix, k with
  | [], _ => true
  | _ :: _, [] => false
  | p :: prefix', x :: k' => (x =? p) && HasPrefix k' prefix'
  end.

(** [kv.Key.PrefixNext] of the store's client library: the smallest key
    greater than every key that has the receiver as a prefix.  The last byte
    is incremented with carry (a byte wraps from 255 to 0); a key made of
    [0xff] bytes only gets a zero byte appended. *)
Fixpoint incr_carry (r : bytes) : option bytes :=
  match r with
  | [] => None
  | b :: r' =>
      let b' := (b + 1) mod 256 in
      if b' =? 0 then cons b' <$> incr_carry r' else Some (b' :: r')
  end.

Definition PrefixNext (k : bytes) : bytes :=
  match incr_carry (rev k) with
  | Some r => rev r
  | None => k ++ [0]
  end.

(** ** Fixed-width integers *)

Definition min_int64 : Z := - 2 ^ 63.
Definition max_int64 : Z := 2 ^ 63 - 1.

(** Conversion to [int64]: two's complement wrap-around. *)
Definition int64 (z : Z) : Z := (z + 2 ^ 63) mod 2 ^ 64 - 2 ^ 63.

(** Conversion to [uint64]. *)
Definition uint64 (z : Z) : Z := z mod 2 ^ 64.

Definition in_int64 (z : Z) : Prop := min_int64 <= z <= max_int64.

(** [binary.BigEndian.PutUint64] into a fresh 8-byte buffer. *)
Definition BigEndian_PutUint64 (v : Z) : bytes :=
  [ Z.land (Z.shiftr v 56) 255; Z.land (Z.shiftr v 48) 255;
    Z.land (Z.shiftr v 40) 255; Z.land (Z.shiftr v 32) 255;
    Z.land (Z.shiftr v 24) 255; Z.land (Z.shiftr v 16) 255;
    Z.land (Z.shiftr v 8) 255;  Z.land v 255 ].

(** [binary.BigEndian.Uint64] of the first eight bytes of a buffer. *)
Definition BigEndian_Uint64 (m : bytes) : Z :=
  match m with
  | b0 :: b1 :: b2 :: b3 :: b4 :: b5 :: b6 :: b7 :: _ =>
      Z.lor (Z.shiftl b0 56) (Z.lor (Z.shiftl b1 48) (Z.lor (Z.shiftl b2 40)
      (Z.lor (Z.shiftl b3 32) (Z.lor (Z.shiftl b4 24) (Z.lor (Z.shiftl b5 16)
      (Z.lor (Z.shiftl b6 8) b7))))))
  | _ => 0
  end.

(** ** Errors and results *)

Inductive error : Type :=
  | ErrNotFound
  | ErrTypeMismatch
  | ErrInvalidLength
  | ErrSetNilValue
  | ErrStore (code : Z).

Global Instance error_eq_dec : EqDecision error.
Proof. solve_decision. Defined.

Definition IsErrNotFound (e : error) : bool := bool_decide (e = ErrNotFound).

(** What a Go call yields: a value with a nil error, a non-nil error, or a
    run-time panic (slice bounds out of range, index out of range). *)
Inductive result (A : Type) : Type :=
  | Ok (a : A)
  | Err (e : error)
  | Panic.
Arguments Ok {A} a.
Arguments Err {A} e.
Arguments Panic {A}.

(** [b[n:]]: panics when [n] exceeds the length. *)
Definition slice_from (b : bytes) (n : nat) : result bytes :=
  if (n <=? length b)%nat then Ok (drop n b) else Panic.

(** [b[:n]]: panics when [n] exceeds the capacity; a buffer is modelled with
    its capacity equal to its length. *)
Definition slice_to (b : bytes) (n : nat) : result bytes :=
  if (n <=? length b)%nat then Ok (take n b) else Panic.

(** [make([]T, 0, n)]: the runtime's [makeslice] panics when the capacity
    is negative or when the bytes asked for are more than the largest
    allocation, 2^48 bytes on a 64-bit platform.  An element of a
    [[][]byte] is a slice header of 24 bytes.  A smaller allocation that the
    machine cannot serve ends the program; the model does not bound the
    memory of the machine. *)
Definition maxAlloc : Z := 2 ^ 48.
Definition slice_header_size : Z := 24.

Definition make_cap_ok (elem_size n : Z) : bool :=
  (0 <=? n) && (elem_size * n <=? maxAlloc).

(** ** Data model *)

(** [Object]: the header shared by every data type (declared in the object
    layer of the package; [newSet] fixes its fields).  The type and encoding
    tags are one byte each. *)
Record Object : Type := mkObject {
  ID : bytes;
  CreatedAt : Z;
  UpdatedAt : Z;
  ExpireAt : Z;
  Type_ : Z;
  Encoding : Z
}.

(** [SetMeta]: the embedded [Object] and the cardinality [Len] (an [int64]). *)
Record SetMeta : Type := mkSetMeta {
  SetMeta_Object : Object;
  Len : Z
}.

(** [Set]: the handle.  The transaction it points to is the one of the
    [World] below. *)
Record Set_ : Type := mkSet {
  meta : SetMeta;
  key : bytes;
  exists_ : bool
}.

Record DB : Type := mkDB {
  Namespace : bytes;
  DBID : bytes
}.

(** [SetNilValue]: the value stored under every member key. *)
Definition SetNilValue : bytes := [0].

(** *** The transaction

    The store is out of the package: section 6 of the specification gives
    its interface ([get], [set], [delete], [iterate]) and says that a call
    can fail.  A transaction is a finite map from keys to values together
    with a table of the calls that fail and the error each one returns. *)
Inductive Op : Type :=
  | OpGet (k : bytes)
  | OpSet (k : bytes)
  | OpDelete (k : bytes)
  | OpIter
  | OpNext
  | OpBatchGet.

Global Instance Op_eq_dec : EqDecision Op.
Proof. solve_decision. Defined.

Record Transaction : Type := mkTransaction {
  db : DB;
  t : gmap bytes bytes;
  faults : list (Op * error)
}.

(** The world an operation runs in: the transaction, the wall clock read by
    [Now] and the position in the supply of identifiers drawn by [UUID]. *)
Record World : Type := mkWorld {
  txn : Transaction;
  clock : Z;
  uuid_next : nat
}.

Fixpoint fault_of (fs : list (Op * error)) (op : Op) : option error :=
  match fs with
  | [] => None
  | (o, e) :: fs' => if decide (o = op) then Some e else fault_of fs' op
  end.

(** No call of the store fails. *)
Definition healthy (w : World) : Prop := faults (txn w) = [].

Definition with_t (w : World) (m : gmap bytes bytes) : World :=
  mkWorld (mkTransaction (db (txn w)) m (faults (txn w))) (clock w) (uuid_next w).

(** A world with database [d], store [m], clock [c] and identifier position
    [u] whose store never fails. *)
Definition hworld (d : DB) (m : gmap bytes bytes) (c : Z) (u : nat) : World :=
  mkWorld (mkTransaction d m []) c u.

(** Deleting a list of keys, and writing the sentinel under a list of keys. *)
Definition delete_keys (m : gmap bytes bytes) (ks : list bytes) : gmap bytes bytes :=
  foldl (fun m k => delete k m) m ks.

Definition set_keys (m : gmap bytes bytes) (ks : list bytes) : gmap bytes bytes :=
  foldl (fun m k => <[k := SetNilValue]> m) m ks.

(** ** A state and error monad for Go calls *)

Definition M (S A : Type) : Type := S -> S * result A.

Definition ret {S A} (a : A) : M S A := fun s => (s, Ok a).
Definition fail {S A} (e : error) : M S A := fun s => (s, Err e).
Definition panic {S A} : M S A := fun s => (s, Panic).

Definition bind {S A B} (m : M S A) (k : A -> M S B) : M S B :=
  fun s =>
    match m s with
    | (s', Ok a) => k a s'
    | (s', Err e) => (s', Err e)
    | (s', Panic) => (s', Panic)
    end.

(** [v, err := f()]: the error is handed to the caller instead of ending the
    computation (a panic still does). *)
Definition try {S A} (m : M S A) : M S (error + A) :=
  fun s =>
    match m s with
    | (s', Ok a) => (s', Ok (inr a))
    | (s', Err e) => (s', Ok (inl e))
    | (s', Panic) => (s', Panic)
    end.

Definition get {S} : M S S := fun s => (s, Ok s).
Definition put {S} (s : S) : M S unit := fun _ => (s, Ok tt).
Definition lift_result {S A} (r : result A) : M S A := fun s => (s, r).

Declare Scope go_scope.
Delimit Scope go_scope with go.
Notation "x <- m ;; k" := (bind m (fun x => k))
  (at level 100, m at next level, right associativity) : go_scope.
Notation "m ;;; k" := (bind m (fun _ => k))
  (at level 100, right associativity) : go_scope.
Local Open Scope go_scope.

(** *** Calls on the transaction *)

Definition txn_Get (k : bytes) : M World bytes := fun w =>
  match fault_of (faults (txn w)) (OpGet k) with
  | Some e => (w, Err e)
  | None =>
      match t (txn w) !! k with
      | Some v => (w, Ok v)
      | None => (w, Err ErrNotFound)
      end
  end.

Definition txn_Set (k v : bytes) : M World unit := fun w =>
  match fault_of (faults (txn w)) (OpSet k) with
  | Some e => (w, Err e)
  | None => (with_t w (<[k := v]> (t (txn w))), Ok tt)
  end.

Definition txn_Delete (k : bytes) : M World unit := fun w =>
  match fault_of (faults (txn w)) (OpDelete k) with
  | Some e => (w, Err e)
  | None => (with_t w (delete k (t (txn w))), Ok tt)
  end.

(** The keys of the store in the range [[lo, hi)], in iteration order. *)
Definition in_range (lo hi k : bytes) : bool := bytes_leb lo k && bytes_ltb k hi.

Definition range_keys (m : gmap bytes bytes) (lo hi : bytes) : list bytes :=
  merge_sort bytes_le (filter (fun k => in_range lo hi k = true) (elements (dom m))).

(** An iterator is the list of the keys it has still to visit: the first one
    is the current key, and the iterator is valid while the list is not
    empty.  It ranges over the keys present when it was opened; [SPop]
    deletes the current key only, which a cursor over the live store does
    not see again either. *)
Definition Iterator : Type := list bytes.

Definition txn_Iter (lo hi : bytes) : M World Iterator := fun w =>
  match fault_of (faults (txn w)) OpIter with
  | Some e => (w, Err e)
  | None => (w, Ok (range_keys (t (txn w)) lo hi))
  end.

Definition iter_Next : M World unit := fun w =>
  match fault_of (faults (txn w)) OpNext with
  | Some e => (w, Err e)
  | None => (w, Ok tt)
  end.

(** [BatchGetValues]: one round trip that returns, for every key, its value
    or nil when it is absent. *)
Definition BatchGetValues (keys : list bytes) : M World (list (option bytes)) := fun w =>
  match fault_of (faults (txn w)) OpBatchGet with
  | Some e => (w, Err e)
  | None => (w, Ok ((fun k => t (txn w) !! k) <$> keys))
  end.

(** [Now]: reads the clock of the world. *)
Definition Now : M World Z := fun w => (w, Ok (clock w)).

(** *** The handle as part of the state

    A method of [*Set] reads and writes the fields of its receiver and calls
    the transaction: its state is the world and the receiver. *)
Record St : Type := mkSt {
  world : World;
  self : Set_
}.

Definition liftW {A} (m : M World A) : M St A := fun s =>
  let (w', r) := m (world s) in (mkSt w' (self s), r).

Definition getSelf : M St Set_ := fun s => (s, Ok (self s)).
Definition setSelf (h : Set_) : M St unit := fun s => (mkSt (world s) h, Ok tt).

(** A method called on another handle [h] (the destination set of [SMove]):
    it runs on the same world; the caller keeps its own receiver and gets the
    other handle back as the call left it. *)
Definition on_handle {A} (h : Set_) (m : M St A) : M St (Set_ * A) := fun s =>
  match m (mkSt (world s) h) with
  | (s', Ok a) => (mkSt (world s') (self s), Ok (self s', a))
  | (s', Err e) => (mkSt (world s') (self s), Err e)
  | (s', Panic) => (mkSt (world s') (self s), Panic)
  end.

Definition set_Len (h : Set_) (n : Z) : Set_ :=
  mkSet (mkSetMeta (SetMeta_Object (meta h)) n) (key h) (exists_ h).

Definition set_UpdatedAt (o : Object) (now : Z) : Object :=
  mkObject (ID o) (CreatedAt o) now (ExpireAt o) (Type_ o) (Encoding o).

(** ** The collaborators of the set layer

    Declared elsewhere in the package and used by [set.go]: the type and
    encoding tags, the object codec with its fixed header length, the two
    key-space constructors and the generator of identifiers (the [n]-th
    identifier it hands out). *)
Class Collaborators : Type := {
  ObjectSet : Z;
  ObjectEncodingHT : Z;
  ObjectEncodingLength : nat;
  EncodeObject : Object -> bytes;
  DecodeObject : bytes -> result Object;
  MetaKey : DB -> bytes -> bytes;
  DataKey : DB -> bytes -> bytes;
  UUID_at : nat -> bytes
}.

(** Modelled from the spec: [IsExpired] is declared outside [set.go].
    Section 3 of the specification: an expiration time of 0 means none;
    section 4.1: a record is expired when its expiration time is set and in
    the past. *)
Definition IsExpired (obj : Object) (now : Z) : bool :=
  negb (ExpireAt obj =? 0) && (ExpireAt obj <? now).

Section SetLayer.
Context `{Collaborators}.

(** [UUID]: draws the next identifier. *)
Definition UUID : M World bytes := fun w =>
  (mkWorld (txn w) (clock w) (S (uuid_next w)), Ok (UUID_at (uuid_next w))).

(** [newSet] *)
Definition newSet (k : bytes) : M World Set_ :=
  now <- Now ;;
  id <- UUID ;;
  ret (mkSet (mkSetMeta (mkObject id now now 0 ObjectSet ObjectEncodingHT) 0) k false).

(** The handle [newSet] builds when the clock reads [c] and the next
    identifier is the [u]-th. *)
Definition fresh_set (k : bytes) (c : Z) (u : nat) : Set_ :=
  mkSet (mkSetMeta (mkObject (UUID_at u) c c 0 ObjectSet ObjectEncodingHT) 0) k false.

(** [DecodeSetMeta]: [b] is [None] for a nil slice.  The length test slices
    the buffer at the header length before anything has checked that the
    buffer is that long. *)
Definition DecodeSetMeta (b : option bytes) : result SetMeta :=
  let buf := default [] b in
  match
    (match b with
     | Some _ =>
         match slice_from buf ObjectEncodingLength with
         | Ok m => if bool_decide (length m = 8%nat) then Ok tt else Err ErrInvalidLength
         | Err e => Err e
         | Panic => Panic
         end
     | None => Ok tt
     end)
  with
  | Err e => Err e
  | Panic => Panic
  | Ok _ =>
      match DecodeObject buf with
      | Err e => Err e
      | Panic => Panic
      | Ok obj =>
          match slice_from buf ObjectEncodingLength with
          | Err e => Err e
          | Panic => Panic
          | Ok m =>
              match slice_to m 8 with
              | Err e => Err e
              | Panic => Panic
              | Ok m8 => Ok (mkSetMeta obj (int64 (BigEndian_Uint64 m8)))
              end
          end
      end
  end.

(** [encodeSetMeta] *)
Definition encodeSetMeta (meta : SetMeta) : bytes :=
  let b := EncodeObject (SetMeta_Object meta) in
  let m := BigEndian_PutUint64 (uint64 (Len meta)) in
  b ++ m.

(** [setItemKey] *)
Definition setItemKey (k member : bytes) : bytes :=
  (([] ++ k) ++ [58]) ++ member.

(** [GetSet] *)
Definition GetSet (k : bytes) : M World Set_ :=
  set <- newSet k ;;
  w <- get ;;
  let mkey := MetaKey (db (txn w)) k in
  r <- try (txn_Get mkey) ;;
  match r with
  | inl err => if IsErrNotFound err then ret set else fail err
  | inr meta_b =>
      smeta <- lift_result (DecodeSetMeta (Some meta_b)) ;;
      if negb (Type_ (SetMeta_Object smeta) =? ObjectSet) then fail ErrTypeMismatch
      else
        now <- Now ;;
        if IsExpired (SetMeta_Object (meta set)) now then ret set
        else ret (mkSet smeta (key set) true)
  end.

(** [SetIter], [Set.Iter], [SetIter.Value] and [SetIter.Valid].  The key of
    an exhausted iterator is the empty key. *)
Record SetIter : Type := mkSetIter {
  SetIter_Iter : Iterator;
  Prefix : bytes
}.

Definition iter_Key (it : Iterator) : bytes := default [] (head it).

Definition Set_Iter : M St SetIter :=
  set <- getSelf ;;
  w <- liftW get ;;
  let dkey := DataKey (db (txn w)) (ID (SetMeta_Object (meta set))) in
  let prefix := dkey ++ [58] in
  let endPrefix := PrefixNext prefix in
  iter <- liftW (txn_Iter prefix endPrefix) ;;
  ret (mkSetIter iter prefix).

Definition SetIter_Value (siter : SetIter) : result bytes :=
  slice_from (iter_Key (SetIter_Iter siter)) (length (Prefix siter)).

Definition SetIter_Valid (siter : SetIter) : bool :=
  if negb (HasPrefix (iter_Key (SetIter_Iter siter)) (Prefix siter)) then false else true.

(** [Set.updateMeta]: the record is encoded and written first; the handle's
    [UpdatedAt] is set afterwards. *)
Definition updateMeta : M St unit :=
  set <- getSelf ;;
  let meta_b := encodeSetMeta (meta set) in
  w <- liftW get ;;
  liftW (txn_Set (MetaKey (db (txn w)) (key set)) meta_b) ;;;
  now <- liftW Now ;;
  setSelf (mkSet (mkSetMeta (set_UpdatedAt (SetMeta_Object (meta set)) now) (Len (meta set)))
                 (key set) true).

(** [RemoveRepByMap]: [uniq] is the Go map used as a set of the members
    seen so far. *)
Fixpoint RemoveRepByMap_from (uniq : gset bytes) (result : list bytes)
    (members : list bytes) : list bytes :=
  match members with
  | [] => result
  | m :: members' =>
      if decide (m ∈ uniq) then RemoveRepByMap_from uniq result members'
      else RemoveRepByMap_from ({[m]} ∪ uniq) (result ++ [m]) members'
  end.

Definition RemoveRepByMap (members : list bytes) : list bytes :=
  RemoveRepByMap_from ∅ [] members.

(** The second loop of [SAdd], over [i := range ikeys]. *)
Fixpoint SAdd_loop (ikeys : list bytes) (values : list (option bytes))
    (i : nat) (added : Z) : M World Z :=
  match ikeys with
  | [] => ret added
  | ikey :: ikeys' =>
      match values !! i with
      | None => panic
      | Some v =>
          let added := match v with None => int64 (added + 1) | Some _ => added end in
          txn_Set ikey SetNilValue ;;;
          SAdd_loop ikeys' values (S i) added
      end
  end.

(** [Set.SAdd]: a failed batch fetch returns [0, nil]. *)
Definition SAdd (members : list bytes) : M St Z :=
  set <- getSelf ;;
  w <- liftW get ;;
  let dkey := DataKey (db (txn w)) (ID (SetMeta_Object (meta set))) in
  let ms := RemoveRepByMap members in
  let ikeys := setItemKey dkey <$> ms in
  r <- try (liftW (BatchGetValues ikeys)) ;;
  match r with
  | inl _ => ret 0
  | inr values =>
      added <- liftW (SAdd_loop ikeys values 0 0) ;;
      set <- getSelf ;;
      setSelf (set_Len set (int64 (Len (meta set) + added))) ;;;
      updateMeta ;;;
      ret added
  end.

(** [Set.Exists] *)
Definition Exists : M St bool :=
  set <- getSelf ;; ret (exists_ set).

(** The loop of [SMembers]. *)
Fixpoint SMembers_loop (prefix : bytes) (iter : Iterator) (count : Z)
    (members : list bytes) : M World (list bytes) :=
  match iter with
  | [] => ret members
  | k :: iter' =>
      if HasPrefix k prefix && negb (count =? 0) then
        m <- lift_result (slice_from k (length prefix)) ;;
        iter_Next ;;;
        SMembers_loop prefix iter' (int64 (count - 1)) (members ++ [m])
      else ret members
  end.

(** [Set.SMembers]: the result slice is made with [Len] as its capacity,
    which panics when [Len] is negative or too large. *)
Definition SMembers : M St (list bytes) :=
  e <- Exists ;;
  if negb e then ret [] else
  set <- getSelf ;;
  w <- liftW get ;;
  let dkey := DataKey (db (txn w)) (ID (SetMeta_Object (meta set))) in
  let prefix := dkey ++ [58] in
  let endPrefix := PrefixNext prefix in
  let count := Len (meta set) in
  if negb (make_cap_ok slice_header_size count) then panic else
  iter <- liftW (txn_Iter prefix endPrefix) ;;
  liftW (SMembers_loop prefix iter count []).

(** [Set.SCard] *)
Definition SCard : M St Z :=
  e <- Exists ;;
  if negb e then ret 0 else
  set <- getSelf ;;
  ret (Len (meta set)).

(** [Set.SIsmember] *)
Definition SIsmember (member : bytes) : M St Z :=
  e <- Exists ;;
  if negb e then ret 0 else
  set <- getSelf ;;
  w <- liftW get ;;
  let dkey := DataKey (db (txn w)) (ID (SetMeta_Object (meta set))) in
  let ikey := setItemKey dkey member in
  r <- try (liftW (txn_Get ikey)) ;;
  match r with
  | inl err => if IsErrNotFound err then ret 0 else fail err
  | inr value =>
      if negb (bool_decide (value = SetNilValue)) then fail ErrSetNilValue
      else ret 1
  end.

(** The loop of [SPop]: the result is the members and the number deleted. *)
Fixpoint SPop_loop (prefix : bytes) (iter : Iterator) (count deleted : Z)
    (members : list bytes) : M World (list bytes * Z) :=
  match iter with
  | [] => ret (members, deleted)
  | k :: iter' =>
      if HasPrefix k prefix && negb (count =? 0) then
        m <- lift_result (slice_from k (length prefix)) ;;
        txn_Delete k ;;;
        let deleted := int64 (deleted + 1) in
        let count := int64 (count - 1) in
        iter_Next ;;;
        SPop_loop prefix iter' count deleted (members ++ [m])
      else ret (members, deleted)
  end.

(** [Set.SPop] *)
Definition SPop (count : Z) : M St (list bytes) :=
  e <- Exists ;;
  set <- getSelf ;;
  if negb e || (Len (meta set) =? 0) then ret [] else
  w <- liftW get ;;
  let dkey := DataKey (db (txn w)) (ID (SetMeta_Object (meta set))) in
  let prefix := dkey ++ [58] in
  let endPrefix := PrefixNext prefix in
  iter <- liftW (txn_Iter prefix endPrefix) ;;
  r <- liftW (SPop_loop prefix iter count 0 []) ;;
  let '(members, deleted) := r in
  setSelf (set_Len set (int64 (Len (meta set) - deleted))) ;;;
  updateMeta ;;;
  ret members.

(** The loop of [SRem]: a value that is not the sentinel is neither deleted
    nor reported. *)
Fixpoint SRem_loop (dkey : bytes) (ms : list bytes) (num : Z) : M World Z :=
  match ms with
  | [] => ret num
  | m :: ms' =>
      let ikey := setItemKey dkey m in
      r <- try (txn_Get ikey) ;;
      match r with
      | inl err => if IsErrNotFound err then SRem_loop dkey ms' num else fail err
      | inr value =>
          if bool_decide (value = SetNilValue) then
            txn_Delete ikey ;;;
            SRem_loop dkey ms' (int64 (num + 1))
          else SRem_loop dkey ms' num
      end
  end.

(** [Set.SRem] *)
Definition SRem (members : list bytes) : M St Z :=
  e <- Exists ;;
  if negb e then ret 0 else
  set <- getSelf ;;
  w <- liftW get ;;
  let dkey := DataKey (db (txn w)) (ID (SetMeta_Object (meta set))) in
  let ms := RemoveRepByMap members in
  num <- liftW (SRem_loop dkey ms 0) ;;
  setSelf (set_Len set (int64 (Len (meta set) - num))) ;;;
  updateMeta ;;;
  ret num.

(** [Set.SMove]: a failure to load the destination returns [0, nil]. *)
Definition SMove (destination member : bytes) : M St Z :=
  e <- Exists ;;
  if negb e then ret 0 else
  res <- SIsmember member ;;
  if res =? 0 then ret 0 else
  r <- try (liftW (GetSet destination)) ;;
  match r with
  | inl _ => ret 0
  | inr destset =>
      r <- on_handle destset (SIsmember member) ;;
      let '(destset, res) := r in
      (if res =? 0 then
         r <- on_handle destset (SAdd [member]) ;;
         let '(destset, _) := r in
         let destset := set_Len destset (int64 (Len (meta destset) + 1)) in
         ret tt
       else ret tt) ;;;
      set <- getSelf ;;
      w <- liftW get ;;
      let dkey := DataKey (db (txn w)) (ID (SetMeta_Object (meta set))) in
      let ikey := setItemKey dkey member in
      liftW (txn_Delete ikey) ;;;
      setSelf (set_Len set (int64 (Len (meta set) - 1))) ;;;
      updateMeta ;;;
      ret 1
  end.

(** *** The members of a set, as the store holds them

    The member keys of a set are the keys of the store that have its data
    prefix; its members are those keys without the prefix, in the order of
    the store; its persisted record is the value under its metadata key. *)
Definition data_prefix (w : World) (set : Set_) : bytes :=
  DataKey (db (txn w)) (ID (SetMeta_Object (meta set))) ++ [58].

Definition member_keys (m : gmap bytes bytes) (prefix : bytes) : list bytes :=
  merge_sort bytes_le (filter (fun k => HasPrefix k prefix = true) (elements (dom m))).

Definition members_of (w : World) (set : Set_) : list bytes :=
  drop (length (data_prefix w set)) <$> member_keys (t (txn w)) (data_prefix w set).

Definition member_set (w : World) (set : Set_) : gset bytes :=
  list_to_set (members_of w set).

Definition persisted (w : World) (set : Set_) : option bytes :=
  t (txn w) !! MetaKey (db (txn w)) (key set).

(** The persisted record, decoded. *)
Definition persisted_meta (w : World) (set : Set_) : option (result SetMeta) :=
  (fun b => DecodeSetMeta (Some b)) <$> persisted w set.

End SetLayer.

(** ** One implementation of the collaborators

    Modelled from the spec: the object codec, the key-space constructors and
    the identifier generator are declared outside [set.go]; section 6 of the
    specification gives their interfaces (a header of fixed length that
    carries the six fields, a metadata key per database and logical key, a
    data prefix per database and object identifier) and the comments of
    [SAdd] give the shape [Namespace:DBID:D:ObjectID] of a data key.  This
    instance fixes one layout that meets them; the operations are evaluated
    on it. *)
Module Ref.

Definition pad16 (id : bytes) : bytes := take 16 (id ++ replicate 16 0).

Definition EncodeObject (o : Object) : bytes :=
  pad16 (ID o) ++ [Type_ o mod 256; Encoding o mod 256]
    ++ BigEndian_PutUint64 (uint64 (CreatedAt o))
    ++ BigEndian_PutUint64 (uint64 (UpdatedAt o))
    ++ BigEndian_PutUint64 (uint64 (ExpireAt o)).

Definition DecodeObject (b : bytes) : result Object :=
  if (length b <? 42)%nat then Err ErrInvalidLength
  else Ok (mkObject (take 16 b)
             (int64 (BigEndian_Uint64 (drop 18 b)))
             (int64 (BigEndian_Uint64 (drop 26 b)))
             (int64 (BigEndian_Uint64 (drop 34 b)))
             (nth 16 b 0) (nth 17 b 0)).

Definition MetaKey (d : DB) (k : bytes) : bytes :=
  Namespace d ++ [58] ++ DBID d ++ [58; 77; 58] ++ k.

Definition DataKey (d : DB) (id : bytes) : bytes :=
  Namespace d ++ [58] ++ DBID d ++ [58; 68; 58] ++ id.

Definition UUID_at (n : nat) : bytes :=
  BigEndian_PutUint64 0 ++ BigEndian_PutUint64 (Z.of_nat n).

Definition collaborators : Collaborators :=
  Build_Collaborators 2 1 42 EncodeObject DecodeObject MetaKey DataKey UUID_at.

End Ref.

(** ** Concrete worlds

    A database [t:1], a set under the logical key [k] with identifier
    [id0], and the stores the operations are evaluated on. *)
Module Demo.
#[local] Existing Instance Ref.collaborators.

Definition db0 : DB := mkDB [116] [49].
Definition id0 : bytes := replicate 16 7.
Definition k_src : bytes := [107].
Definition k_dst : bytes := [100].

(** The header of the set: created and last updated at time 100. *)
Definition obj0 (expire : Z) : Object := mkObject id0 100 100 expire 2 1.

(** The handle of the set when it holds [n] members. *)
Definition set0 (n : Z) : Set_ := mkSet (mkSetMeta (obj0 0) n) k_src true.

Definition ikey (member : bytes) : bytes := setItemKey (DataKey db0 id0) member.

(** The set {a} with its record, read at time 200. *)
Definition store_a : gmap bytes bytes :=
  <[MetaKey db0 k_src := encodeSetMeta (mkSetMeta (obj0 0) 1)]>
    (<[ikey [97] := SetNilValue]> ∅).

(** The set {a, b, c} with its record. *)
Definition store_abc : gmap bytes bytes :=
  <[MetaKey db0 k_src := encodeSetMeta (mkSetMeta (obj0 0) 3)]>
    (<[ikey [99] := SetNilValue]>
       (<[ikey [97] := SetNilValue]> (<[ikey [98] := SetNilValue]> ∅))).

(** The same record with an expiration time of 50, in the past at 200. *)
Definition store_expired : gmap bytes bytes :=
  <[MetaKey db0 k_src := encodeSetMeta (mkSetMeta (obj0 50) 1)]>
    (<[ikey [97] := SetNilValue]> ∅).

(** The member key of [a] holds the byte 1 instead of the sentinel. *)
Definition store_corrupt : gmap bytes bytes :=
  <[MetaKey db0 k_src := encodeSetMeta (mkSetMeta (obj0 0) 1)]>
    (<[ikey [97] := [1]]> ∅).

Definition world_of (m : gmap bytes bytes) (fs : list (Op * error)) : World :=
  mkWorld (mkTransaction db0 m fs) 200 0.

(** A record under [k] whose type tag is 1, not the tag of a set. *)
Definition store_other_type : gmap bytes bytes :=
  <[MetaKey db0 k_src := encodeSetMeta (mkSetMeta (mkObject id0 100 100 0 1 1) 1)]> ∅.

(** A second set, under the logical key [d] with identifier [id1], that
    holds {b}; [store_two] holds it beside the set {a}. *)
Definition id1 : bytes := replicate 16 9.
Definition obj1 : Object := mkObject id1 100 100 0 2 1.
Definition ikey1 (member : bytes) : bytes := setItemKey (DataKey db0 id1) member.

Definition store_two : gmap bytes bytes :=
  <[MetaKey db0 k_dst := encodeSetMeta (mkSetMeta obj1 1)]>
    (<[ikey1 [98] := SetNilValue]> store_a).

(** A handle for [k] that does not exist yet. *)
Definition set_new : Set_ := mkSet (mkSetMeta (obj0 0) 0) k_src false.

(** The worlds with the set {a} and with the set {a, b, c}, at time 200,
    on a store that does not fail. *)
Definition w_a : World := world_of store_a [].
Definition w_abc : World := world_of store_abc [].

End Demo.

(** * Properties *)

(** ** The order on keys *)

Lemma bytes_compare_refl (a : bytes) : bytes_compare a a = Eq.
Proof. induction a as [|x a IH]; simpl; [done|]. by rewrite Z.compare_refl. Qed.

Lemma bytes_compare_eq (a b : bytes) : bytes_compare a b = Eq -> a = b.
Proof.
  revert b. induction a as [|x a IH]; intros [|y b]; simpl; try done.
  destruct (Z.compare_spec x y); try done.
  intros E. subst. f_equal. by apply IH.
Qed.

Lemma bytes_compare_antisym (a b : bytes) :
  bytes_compare b a = CompOpp (bytes_compare a b).
Proof.
  revert b. induction a as [|x a IH]; intros [|y b]; simpl; try done.
  rewrite (Z.compare_antisym x y).
  destruct (x ?= y); simpl; auto.
Qed.

Lemma bytes_compare_lt_trans (a b c : bytes) :
  bytes_compare a b = Lt -> bytes_compare b c = Lt -> bytes_compare a c = Lt.
Proof.
  revert b c. induction a as [|x a IH]; intros [|y b] [|z c]; simpl; try done.
  destruct (Z.compare_spec x y), (Z.compare_spec y z); try done; subst.
  - rewrite Z.compare_refl. apply IH.
  - intros _ _. by destruct (Z.compare_spec y z); try lia.
  - intros _ _. by destruct (Z.compare_spec x z); try lia.
  - intros _ _. by destruct (Z.compare_spec x z); try lia.
Qed.

Lemma bytes_leb_ltb (a b : bytes) : bytes_leb a b = negb (bytes_ltb b a).
Proof.
  unfold bytes_leb, bytes_ltb. rewrite (bytes_compare_antisym a b).
  by destruct (bytes_compare a b).
Qed.

Global Instance bytes_le_total : Total bytes_le.
Proof.
  intros a b. unfold bytes_le, bytes_leb.
  rewrite (bytes_compare_antisym a b).
  destruct (bytes_compare a b); simpl; auto.
Qed.

Global Instance bytes_le_trans : Transitive bytes_le.
Proof.
  intros a b c. unfold bytes_le, bytes_leb.
  destruct (bytes_compare a b) eqn:Eab; try done;
    destruct (bytes_compare b c) eqn:Ebc; try done; intros _ _.
  - apply bytes_compare_eq in Eab, Ebc. subst. by rewrite bytes_compare_refl.
  - apply bytes_compare_eq in Eab. subst. by rewrite Ebc.
  - apply bytes_compare_eq in Ebc. subst. by rewrite Eab.
  - by rewrite (bytes_compare_lt_trans a b c).
Qed.

Global Instance bytes_le_antisymm : AntiSymm (=) bytes_le.
Proof.
  intros a b. unfold bytes_le, bytes_leb.
  rewrite (bytes_compare_antisym a b).
  destruct (bytes_compare a b) eqn:E; simpl; try done.
  intros _ _. by apply bytes_compare_eq.
Qed.

Lemma bytes_compare_app (p a b : bytes) :
  bytes_compare (p ++ a) (p ++ b) = bytes_compare a b.
Proof. induction p as [|x p IH]; simpl; [done|]. by rewrite Z.compare_refl. Qed.

Lemma bytes_le_lt (a b : bytes) : bytes_le a b -> a ≠ b -> bytes_lt a b.
Proof.
  unfold bytes_le, bytes_lt, bytes_leb, bytes_ltb.
  destruct (bytes_compare a b) eqn:E; try done.
  intros _ Hne. by apply bytes_compare_eq in E.
Qed.

(** ** Prefixes and the range of a prefix *)

Lemma HasPrefix_app (p s : bytes) : HasPrefix (p ++ s) p = true.
Proof. induction p as [|x p IH]; simpl; [done|]. by rewrite Z.eqb_refl. Qed.

Lemma HasPrefix_inv (k p : bytes) : HasPrefix k p = true -> k = p ++ drop (length p) k.
Proof.
  revert k. induction p as [|x p IH]; intros [|y k]; simpl; try done.
  intros [E Hk]%andb_true_iff. apply Z.eqb_eq in E. subst. f_equal. by apply IH.
Qed.

Lemma HasPrefix_spec (k p : bytes) : HasPrefix k p = true <-> ∃ s, k = p ++ s.
Proof.
  split.
  - intros Hk. eexists. by apply HasPrefix_inv.
  - intros [s ->]. apply HasPrefix_app.
Qed.

Lemma PrefixNext_colon (d : bytes) : PrefixNext (d ++ [58]) = d ++ [59].
Proof.
  unfold PrefixNext. rewrite rev_app_distr. simpl.
  by rewrite rev_involutive.
Qed.

(** The range that [SMembers], [SPop] and [Set.Iter] ask the store for holds
    the keys with the data prefix, and no other key. *)
Lemma in_range_prefix (d k : bytes) :
  in_range (d ++ [58]) (PrefixNext (d ++ [58])) k = HasPrefix k (d ++ [58]).
Proof.
  rewrite PrefixNext_colon. unfold in_range, bytes_leb, bytes_ltb.
  revert k. induction d as [|y d IH]; intros [|x k];
    cbn [bytes_compare HasPrefix app]; try done.
  - rewrite (Z.compare_antisym x 58).
    destruct (Z.compare_spec x 58) as [->| |]; cbn [CompOpp].
    + rewrite Z.eqb_refl. change (58 ?= 59) with Lt. by destruct k.
    + destruct (Z.eqb_spec x 58); [lia|done].
    + destruct (Z.eqb_spec x 58); [lia|].
      destruct (Z.compare_spec x 59) as [->| |]; try done; try lia.
      by destruct k.
  - rewrite (Z.compare_antisym x y).
    destruct (Z.compare_spec x y) as [->| |]; cbn [CompOpp].
    + rewrite Z.eqb_refl. apply IH.
    + destruct (Z.eqb_spec x y); [lia|done].
    + destruct (Z.eqb_spec x y); [lia|done].
Qed.

(** ** [int64] arithmetic *)

Lemma int64_small (z : Z) : in_int64 z -> int64 z = z.
Proof.
  unfold in_int64, min_int64, max_int64, int64. intros Hz.
  rewrite Z.mod_small; lia.
Qed.

Lemma int64_range (z : Z) : in_int64 (int64 z).
Proof.
  unfold in_int64, min_int64, max_int64, int64.
  pose proof (Z.mod_pos_bound (z + 2 ^ 63) (2 ^ 64)). lia.
Qed.

Lemma int64_idem (z : Z) : int64 (int64 z) = int64 z.
Proof. apply int64_small, int64_range. Qed.

Lemma int64_add_l (a b : Z) : int64 (int64 a + b) = int64 (a + b).
Proof.
  unfold int64. f_equal.
  replace ((a + 2 ^ 63) mod 2 ^ 64 - 2 ^ 63 + b + 2 ^ 63)
    with ((a + 2 ^ 63) mod 2 ^ 64 + b) by lia.
  rewrite Zplus_mod_idemp_l. f_equal. lia.
Qed.

Lemma int64_zero_iff (z : Z) : int64 z = 0 <-> z mod 2 ^ 64 = 0.
Proof.
  unfold int64. split; intros Hz.
  - assert (E : (z + 2 ^ 63) mod 2 ^ 64 = 2 ^ 63) by lia.
    replace z with ((z + 2 ^ 63) - 2 ^ 63) by lia.
    rewrite Zminus_mod, E. reflexivity.
  - rewrite Zplus_mod, Hz. reflexivity.
Qed.

Lemma int64_uint64 (z : Z) : in_int64 z -> int64 (uint64 z) = z.
Proof.
  intros Hz. unfold uint64.
  transitivity (int64 z); [|by apply int64_small].
  unfold int64. f_equal. by rewrite Zplus_mod_idemp_l.
Qed.

(** ** The big-endian cardinality field *)

Lemma testbit_byte_at (v s n : Z) :
  0 <= s -> 0 <= n ->
  Z.testbit (Z.shiftl (Z.land (Z.shiftr v s) 255) s) n
  = Z.testbit v n && (s <=? n) && (n <? s + 8).
Proof.
  intros Hs Hn. rewrite Z.shiftl_spec by done.
  destruct (Z.leb_spec s n) as [Hle|Hlt].
  - rewrite Z.land_spec, Z.shiftr_spec by lia.
    replace (n - s + s) with n by lia.
    change 255 with (Z.ones 8).
    destruct (Z.ltb_spec n (s + 8)).
    + rewrite Z.ones_spec_low by lia. by rewrite !andb_true_r.
    + rewrite Z.ones_spec_high by lia. by rewrite !andb_false_r.
  - rewrite Z.testbit_neg_r by lia. by rewrite andb_false_r.
Qed.

Lemma testbit_uint64_high (v n : Z) :
  0 <= v < 2 ^ 64 -> 64 <= n -> Z.testbit v n = false.
Proof.
  intros Hv Hn. rewrite <- (Z.mod_small v (2 ^ 64)) by done.
  apply Z.mod_pow2_bits_high. lia.
Qed.

Lemma BigEndian_Uint64_PutUint64 (v : Z) :
  0 <= v < 2 ^ 64 -> BigEndian_Uint64 (BigEndian_PutUint64 v) = v.
Proof.
  intros Hv. unfold BigEndian_Uint64, BigEndian_PutUint64.
  rewrite <- (Z.shiftl_0_r (Z.land v 255)).
  rewrite <- (Z.shiftr_0_r v) at 8.
  apply Z.bits_inj'. intros n Hn.
  rewrite !Z.lor_spec, !testbit_byte_at by lia.
  destruct (Z.testbit v n) eqn:Hb; simpl.
  - destruct (Z.ltb_spec n 64) as [Hlt|Hge].
    + assert (Hcase : n < 8 \/ 8 <= n < 16 \/ 16 <= n < 24 \/ 24 <= n < 32
                      \/ 32 <= n < 40 \/ 40 <= n < 48 \/ 48 <= n < 56 \/ 56 <= n) by lia.
      repeat destruct Hcase as [Hcase|Hcase];
        repeat match goal with
               | |- context [(?a <=? n)] =>
                   first [ rewrite (proj2 (Z.leb_le a n)) by lia
                         | rewrite (proj2 (Z.leb_gt a n)) by lia ]
               | |- context [(n <? ?a)] =>
                   first [ rewrite (proj2 (Z.ltb_lt n a)) by lia
                         | rewrite (proj2 (Z.ltb_ge n a)) by lia ]
               end; reflexivity.
    + by rewrite testbit_uint64_high in Hb.
  - done.
Qed.

Lemma length_BigEndian_PutUint64 (v : Z) : length (BigEndian_PutUint64 v) = 8%nat.
Proof. reflexivity. Qed.

Lemma uint64_range (z : Z) : 0 <= uint64 z < 2 ^ 64.
Proof. unfold uint64. apply Z.mod_pos_bound. lia. Qed.

Section Codec.
Context `{Collaborators}.

Lemma slice_from_app (a b : bytes) : slice_from (a ++ b) (length a) = Ok b.
Proof.
  unfold slice_from. rewrite length_app.
  destruct (Nat.leb_spec (length a) (length a + length b)); [|lia].
  by rewrite drop_app_length.
Qed.

(** C6.  Decoding the encoding of a metadata record succeeds and gives the
    record back, header and [Len], when the object codec writes a header of
    the fixed length and reads it back from the front of the buffer, and
    [Len] is an [int64]. *)
Theorem DecodeSetMeta_encodeSetMeta (m : SetMeta) :
  length (EncodeObject (SetMeta_Object m)) = ObjectEncodingLength ->
  DecodeObject (encodeSetMeta m) = Ok (SetMeta_Object m) ->
  in_int64 (Len m) ->
  DecodeSetMeta (Some (encodeSetMeta m)) = Ok m.
Proof.
  intros Hlen Hdec HLen. unfold DecodeSetMeta. cbn [default from_option id].
  unfold encodeSetMeta in *. cbv zeta in *.
  rewrite Hdec, <- Hlen, !slice_from_app.
  rewrite bool_decide_eq_true_2 by done.
  unfold slice_to. rewrite length_BigEndian_PutUint64. cbn [Nat.leb take].
  change (take 8 (BigEndian_PutUint64 ?v)) with (BigEndian_PutUint64 v).
  rewrite BigEndian_Uint64_PutUint64 by apply uint64_range.
  rewrite int64_uint64 by done. by destruct m.
Qed.

(** A non-nil buffer shorter than the header makes the length test itself
    slice out of range. *)
Lemma DecodeSetMeta_short (b : bytes) :
  (length b < ObjectEncodingLength)%nat -> DecodeSetMeta (Some b) = Panic.
Proof.
  intros Hb. unfold DecodeSetMeta, slice_from. cbn [default from_option id].
  destruct (Nat.leb_spec ObjectEncodingLength (length b)); [lia|done].
Qed.

(** On a buffer at least as long as the header the failure condition is the
    stated one. *)
Lemma DecodeSetMeta_InvalidLength (b : bytes) :
  (ObjectEncodingLength <= length b)%nat ->
  (length b - ObjectEncodingLength)%nat ≠ 8%nat ->
  DecodeSetMeta (Some b) = Err ErrInvalidLength.
Proof.
  intros Hb Hne. unfold DecodeSetMeta, slice_from. cbn [default from_option id].
  destruct (Nat.leb_spec ObjectEncodingLength (length b)); [|lia].
  rewrite length_drop. by rewrite bool_decide_eq_false_2.
Qed.

(** On a buffer of the header length plus 8 the decoder follows the object
    codec. *)
Lemma DecodeSetMeta_exact_length_aux (b : bytes) :
  length b = (ObjectEncodingLength + 8)%nat ->
  DecodeSetMeta (Some b)
  = match DecodeObject b with
    | Ok obj => Ok (mkSetMeta obj (int64 (BigEndian_Uint64 (drop ObjectEncodingLength b))))
    | Err e => Err e
    | Panic => Panic
    end.
Proof.
  intros Hb. unfold DecodeSetMeta, slice_from, slice_to. cbn [default from_option id].
  destruct (Nat.leb_spec ObjectEncodingLength (length b)); [|lia].
  rewrite length_drop. rewrite bool_decide_eq_true_2 by lia.
  destruct (DecodeObject b); try done.
  destruct (Nat.leb_spec 8 (length b - ObjectEncodingLength)); [|lia].
  rewrite take_ge by (rewrite length_drop; lia). done.
Qed.

End Codec.

(** C6, on a record of the reference codec. *)
Lemma DecodeSetMeta_encodeSetMeta_witness :
  @DecodeSetMeta Ref.collaborators
    (Some (@encodeSetMeta Ref.collaborators
             (mkSetMeta (mkObject (replicate 16 7) 100 120 0 2 1) 5)))
  = Ok (mkSetMeta (mkObject (replicate 16 7) 100 120 0 2 1) 5).
Proof.
  apply (@DecodeSetMeta_encodeSetMeta Ref.collaborators).
  - reflexivity.
  - vm_compute. reflexivity.
  - unfold in_int64, min_int64, max_int64. simpl. lia.
Defined.

(** C7.  [DecodeSetMeta] is not total: on the one-byte buffer the length
    test [b[ObjectEncodingLength:]] is out of range and the call panics
    instead of failing with [ErrInvalidLength]. *)
Theorem DecodeSetMeta_panics_on_short_buffer :
  @DecodeSetMeta Ref.collaborators (Some [0]) = Panic.
Proof. reflexivity. Qed.

(** ** Store errors that do not reach the caller *)

Section Swallowed.
Context `{Collaborators}.

(** Whatever error the batch fetch returns, [SAdd] returns [0, nil] and
    leaves the world and the handle as they were. *)
Lemma SAdd_batch_error (w : World) (set : Set_) (members : list bytes) (e : error) :
  fault_of (faults (txn w)) OpBatchGet = Some e ->
  SAdd members (mkSt w set) = (mkSt w set, Ok 0).
Proof.
  intros Hf. unfold SAdd, bind, getSelf, liftW, get, try, BatchGetValues.
  cbn. rewrite Hf. reflexivity.
Qed.

End Swallowed.

(** C1.  A store error is not always surfaced: with a store whose batch
    fetch fails with a store error, [SAdd] returns 0 and no error; with a
    store that fails to read the destination's record, [GetSet] fails with
    that error and [SMove] returns 0 and no error. *)
Theorem store_error_not_surfaced :
  let _ := Ref.collaborators in
  let w1 := Demo.world_of Demo.store_a [(OpBatchGet, ErrStore 1)] in
  let w2 := Demo.world_of Demo.store_a
              [(OpGet (MetaKey Demo.db0 Demo.k_dst), ErrStore 1)] in
  snd (BatchGetValues [Demo.ikey [98]] w1) = Err (ErrStore 1)
  /\ snd (SAdd [[98]] (mkSt w1 (Demo.set0 1))) = Ok 0
  /\ snd (GetSet Demo.k_dst w2) = Err (ErrStore 1)
  /\ snd (SMove Demo.k_dst [97] (mkSt w2 (Demo.set0 1))) = Ok 0.
Proof. vm_compute. repeat split; reflexivity. Qed.

(** C2.  A record that decodes as a set and whose expiration time (50) is
    set and in the past at load time (200) is not discarded: [GetSet] tests
    the expiration of the fresh handle, whose expiration time is 0, and
    returns the stored metadata with [exists_ = true]. *)
Theorem GetSet_returns_expired_metadata :
  let _ := Ref.collaborators in
  let w := Demo.world_of Demo.store_expired [] in
  let smeta := mkSetMeta (Demo.obj0 50) 1 in
  persisted_meta w (Demo.set0 1) = Some (Ok smeta)
  /\ IsExpired (SetMeta_Object smeta) (clock w) = true
  /\ snd (GetSet Demo.k_src w) = Ok (mkSet smeta Demo.k_src true).
Proof. vm_compute. repeat split; reflexivity. Qed.

(** C3.  A member key whose value is not the sentinel does not make [SRem]
    fail: the member is skipped and the call returns 0 and no error, where
    [SIsmember] on the same key fails with [ErrSetNilValue]. *)
Theorem SRem_skips_corrupt_member :
  let _ := Ref.collaborators in
  let w := Demo.world_of Demo.store_corrupt [] in
  t (txn w) !! Demo.ikey [97] = Some [1]
  /\ snd (SRem [[97]] (mkSt w (Demo.set0 1))) = Ok 0
  /\ snd (SIsmember [97] (mkSt w (Demo.set0 1))) = Err ErrSetNilValue.
Proof. vm_compute. repeat split; reflexivity. Qed.

(** C8.  The record persisted by a membership-changing operation carries
    the timestamp the handle held before the operation: the set {a} last
    updated at 100 is loaded at time 200 and [b] is added; the record in the
    store has [Len] 2 and [UpdatedAt] 100, and only the handle has 200. *)
Theorem persisted_record_keeps_old_timestamp :
  let _ := Ref.collaborators in
  let w := Demo.world_of Demo.store_a [] in
  let s' := fst (SAdd [[98]] (mkSt w (Demo.set0 1))) in
  snd (GetSet Demo.k_src w) = Ok (Demo.set0 1)
  /\ snd (SAdd [[98]] (mkSt w (Demo.set0 1))) = Ok 1
  /\ persisted_meta (world s') (self s')
     = Some (Ok (mkSetMeta (mkObject Demo.id0 100 100 0 2 1) 2))
  /\ meta (self s') = mkSetMeta (mkObject Demo.id0 100 200 0 2 1) 2.
Proof. vm_compute. repeat split; reflexivity. Qed.

(** ** The member keys of a set *)

Lemma elem_of_member_keys (m : gmap bytes bytes) (p k : bytes) :
  k ∈ member_keys m p <-> HasPrefix k p = true /\ is_Some (m !! k).
Proof.
  unfold member_keys. rewrite merge_sort_Permutation.
  rewrite list_elem_of_filter, elem_of_elements, elem_of_dom. done.
Qed.

Lemma NoDup_member_keys (m : gmap bytes bytes) (p : bytes) : NoDup (member_keys m p).
Proof.
  unfold member_keys. rewrite merge_sort_Permutation.
  apply NoDup_filter, NoDup_elements.
Qed.

Lemma StronglySorted_member_keys (m : gmap bytes bytes) (p : bytes) :
  StronglySorted bytes_le (member_keys m p).
Proof. apply StronglySorted_merge_sort; apply _. Qed.

(** The range scan of [SMembers] and [SPop] yields the member keys. *)
Lemma range_keys_prefix (m : gmap bytes bytes) (d : bytes) :
  range_keys m (d ++ [58]) (PrefixNext (d ++ [58])) = member_keys m (d ++ [58]).
Proof.
  unfold range_keys, member_keys. f_equal.
  apply list_filter_iff. intros k. by rewrite in_range_prefix.
Qed.

(** A sorted, duplicate-free list with the elements of the member keys is
    the list of the member keys. *)
Lemma member_keys_unique (m : gmap bytes bytes) (p : bytes) (L : list bytes) :
  StronglySorted bytes_le L -> NoDup L ->
  (∀ k, k ∈ L <-> HasPrefix k p = true /\ is_Some (m !! k)) ->
  member_keys m p = L.
Proof.
  intros HS HN HL.
  apply (StronglySorted_unique bytes_le); [apply StronglySorted_member_keys|done|].
  apply NoDup_Permutation; [apply NoDup_member_keys|done|].
  intros k. by rewrite elem_of_member_keys, HL.
Qed.

Lemma StronglySorted_drop {A} (R : relation A) (n : nat) (l : list A) :
  StronglySorted R l -> StronglySorted R (drop n l).
Proof.
  intros HS. rewrite <- (take_drop n l) in HS.
  by apply StronglySorted_app_1_r in HS.
Qed.

Lemma elem_of_drop_NoDup {A} (n : nat) (l : list A) (x : A) :
  NoDup l -> x ∈ drop n l <-> x ∈ l /\ x ∉ take n l.
Proof.
  intros HN. rewrite <- (take_drop n l) in HN at 1.
  apply NoDup_app in HN as (_ & Hdisj & _).
  rewrite <- (take_drop n l) at 2. rewrite elem_of_app.
  split; [intros Hx; split; [by right|]; intros Ht; by apply (Hdisj x)|].
  by intros [[Ht|Hd] Hn].
Qed.

Lemma lookup_delete_keys (m : gmap bytes bytes) (ks : list bytes) (k : bytes) :
  delete_keys m ks !! k = if decide (k ∈ ks) then None else m !! k.
Proof.
  unfold delete_keys. revert m. induction ks as [|x ks IH]; intros m; cbn [foldl].
  - by rewrite decide_False by apply not_elem_of_nil.
  - rewrite IH. destruct (decide (k ∈ ks)) as [Hin|Hnin].
    + by rewrite decide_True by (by right).
    + destruct (decide (x = k)) as [->|Hne].
      * rewrite lookup_delete_eq. by rewrite decide_True by left.
      * rewrite lookup_delete_ne by done.
        rewrite decide_False; [done|]. rewrite elem_of_cons. by intros [->|].
Qed.

Lemma lookup_set_keys (m : gmap bytes bytes) (ks : list bytes) (k : bytes) :
  set_keys m ks !! k = if decide (k ∈ ks) then Some SetNilValue else m !! k.
Proof.
  unfold set_keys. revert m. induction ks as [|x ks IH]; intros m; cbn [foldl].
  - by rewrite decide_False by apply not_elem_of_nil.
  - rewrite IH. destruct (decide (k ∈ ks)) as [Hin|Hnin].
    + by rewrite decide_True by (by right).
    + destruct (decide (x = k)) as [->|Hne].
      * rewrite lookup_insert_eq. by rewrite decide_True by left.
      * rewrite lookup_insert_ne by done.
        rewrite decide_False; [done|]. rewrite elem_of_cons. by intros [->|].
Qed.

(** After the first [n] member keys are deleted and a key outside the data
    prefix is written, the member keys are the remaining ones. *)
Lemma member_keys_after_pop (m : gmap bytes bytes) (p mk v : bytes) (n : nat) :
  HasPrefix mk p = false ->
  member_keys (<[mk := v]> (delete_keys m (take n (member_keys m p)))) p
  = drop n (member_keys m p).
Proof.
  intros Hmk. apply member_keys_unique.
  - apply StronglySorted_drop, StronglySorted_member_keys.
  - eapply sublist_NoDup; [apply NoDup_member_keys|apply sublist_drop].
  - intros k. rewrite elem_of_drop_NoDup by apply NoDup_member_keys.
    rewrite elem_of_member_keys. split.
    + intros [[Hp Hs] Hnin]. split; [done|].
      rewrite lookup_insert_ne by (intros ->; congruence).
      rewrite lookup_delete_keys. by rewrite decide_False.
    + intros [Hp Hs].
      rewrite lookup_insert_ne in Hs by (intros ->; congruence).
      rewrite lookup_delete_keys in Hs.
      destruct (decide (k ∈ take n (member_keys m p))); [by destruct Hs|done].
Qed.

(** ** Running the operations on a healthy store *)

Lemma healthy_hworld (w : World) :
  healthy w -> w = hworld (db (txn w)) (t (txn w)) (clock w) (uuid_next w).
Proof. destruct w as [[d m fs] c u]. unfold healthy. simpl. by intros ->. Qed.

Lemma slice_from_prefix (k p : bytes) :
  HasPrefix k p = true -> slice_from k (length p) = Ok (drop (length p) k).
Proof.
  intros Hk. apply HasPrefix_inv in Hk. unfold slice_from.
  destruct (Nat.leb_spec (length p) (length k)) as [|Hlt]; [done|].
  rewrite Hk, length_app in Hlt. lia.
Qed.

Lemma txn_Get_h k d m c u :
  txn_Get k (hworld d m c u)
  = (hworld d m c u, match m !! k with Some v => Ok v | None => Err ErrNotFound end).
Proof. unfold txn_Get. cbn. by destruct (m !! k). Qed.

Lemma txn_Set_h k v d m c u :
  txn_Set k v (hworld d m c u) = (hworld d (<[k := v]> m) c u, Ok tt).
Proof. reflexivity. Qed.

Lemma txn_Delete_h k d m c u :
  txn_Delete k (hworld d m c u) = (hworld d (delete k m) c u, Ok tt).
Proof. reflexivity. Qed.

Lemma txn_Iter_h lo hi d m c u :
  txn_Iter lo hi (hworld d m c u) = (hworld d m c u, Ok (range_keys m lo hi)).
Proof. reflexivity. Qed.

Lemma iter_Next_h d m c u : iter_Next (hworld d m c u) = (hworld d m c u, Ok tt).
Proof. reflexivity. Qed.

Lemma BatchGetValues_h keys d m c u :
  BatchGetValues keys (hworld d m c u)
  = (hworld d m c u, Ok ((fun k => m !! k) <$> keys)).
Proof. reflexivity. Qed.

Section Runs.
Context `{Collaborators}.

(** The loop of [SPop] runs [n] times when the budget is non-zero during the
    first [n] rounds and the loop then runs out of keys or of budget. *)
Lemma SPop_loop_run (p : bytes) (ks : list bytes) :
  ∀ (n : nat) (count deleted : Z) (members : list bytes) d m c u,
    Forall (fun k => HasPrefix k p = true) ks ->
    (n <= length ks)%nat ->
    (∀ j : nat, (j < n)%nat -> int64 (count - Z.of_nat j) ≠ 0) ->
    n = length ks \/ int64 (count - Z.of_nat n) = 0 ->
    int64 count = count ->
    int64 deleted = deleted ->
    SPop_loop p ks count deleted members (hworld d m c u)
    = (hworld d (delete_keys m (take n ks)) c u,
       Ok (members ++ (drop (length p) <$> take n ks), int64 (deleted + Z.of_nat n))).
Proof.
  induction ks as [|k ks IH]; intros n count deleted members d m c u HP Hn Hnz Hend Hc Hd.
  - destruct n; [|simpl in Hn; lia]. cbn.
    rewrite app_nil_r, Z.add_0_r, Hd. reflexivity.
  - apply Forall_cons in HP as [Hk HP]. cbn [SPop_loop]. rewrite Hk.
    destruct n as [|n].
    + destruct Hend as [Hend|Hend]; [done|].
      rewrite Z.sub_0_r, Hc in Hend. subst count. cbn.
      rewrite app_nil_r, Z.add_0_r, Hd. reflexivity.
    + assert (Hc0 : count ≠ 0).
      { specialize (Hnz O ltac:(lia)). by rewrite Z.sub_0_r, Hc in Hnz. }
      destruct (Z.eqb_spec count 0) as [|_]; [done|]. cbn [andb negb].
      unfold bind, lift_result. rewrite (slice_from_prefix _ _ Hk).
      rewrite txn_Delete_h, iter_Next_h.
      rewrite (IH n); try done.
      * cbn [take fmap list_fmap delete_keys foldl].
        rewrite <- app_assoc. cbn [app]. rewrite int64_add_l.
        by replace (deleted + 1 + Z.of_nat n) with (deleted + Z.of_nat (S n)) by lia.
      * simpl in Hn. lia.
      * intros j Hj. rewrite <- Z.add_opp_r, int64_add_l.
        specialize (Hnz (S j) ltac:(lia)).
        by replace (count - 1 + - Z.of_nat j) with (count - Z.of_nat (S j)) by lia.
      * destruct Hend as [Hend|Hend]; [left; simpl in Hend; lia|right].
        rewrite <- Z.add_opp_r, int64_add_l.
        by replace (count - 1 + - Z.of_nat n) with (count - Z.of_nat (S n)) by lia.
      * apply int64_idem.
      * apply int64_idem.
Qed.

Lemma updateMeta_h d m c u (set : Set_) :
  updateMeta (mkSt (hworld d m c u) set)
  = (mkSt (hworld d (<[MetaKey d (key set) := encodeSetMeta (meta set)]> m) c u)
          (mkSet (mkSetMeta (set_UpdatedAt (SetMeta_Object (meta set)) c) (Len (meta set)))
                 (key set) true),
     Ok tt).
Proof. reflexivity. Qed.

(** [SPop] on an existing set with a non-zero [Len]. *)
Lemma SPop_run (n : nat) (count : Z) d m c u (set : Set_) :
  let p := DataKey d (ID (SetMeta_Object (meta set))) ++ [58] in
  let L := member_keys m p in
  let len' := int64 (Len (meta set) - int64 (Z.of_nat n)) in
  exists_ set = true ->
  Len (meta set) ≠ 0 ->
  (n <= length L)%nat ->
  (∀ j : nat, (j < n)%nat -> int64 (count - Z.of_nat j) ≠ 0) ->
  n = length L \/ int64 (count - Z.of_nat n) = 0 ->
  int64 count = count ->
  SPop count (mkSt (hworld d m c u) set)
  = (mkSt (hworld d (<[MetaKey d (key set)
                       := encodeSetMeta (mkSetMeta (SetMeta_Object (meta set)) len')]>
                       (delete_keys m (take n L))) c u)
          (mkSet (mkSetMeta (set_UpdatedAt (SetMeta_Object (meta set)) c) len')
                 (key set) true),
     Ok (drop (length p) <$> take n L)).
Proof.
  intros p L len' He HL Hn Hnz Hend Hc.
  unfold SPop, Exists, bind, getSelf, liftW, get, ret, setSelf.
  cbn [self world]. rewrite He. cbn [negb orb].
  destruct (Z.eqb_spec (Len (meta set)) 0) as [|_]; [done|].
  cbn [self world]. change (db (txn (hworld d m c u))) with d. fold p.
  rewrite txn_Iter_h. unfold p at 2 3. rewrite range_keys_prefix. fold p. fold L.
  cbn [self world].
  rewrite (SPop_loop_run p L n count 0 [] d m c u); try done.
  apply Forall_forall. intros k Hk. by apply elem_of_member_keys in Hk as [? _].
Qed.

(** *** The members, as seen through the member keys *)

Lemma elem_of_members_of (w : World) (set : Set_) (x : bytes) :
  x ∈ members_of w set <-> is_Some (t (txn w) !! (data_prefix w set ++ x)).
Proof.
  unfold members_of. rewrite list_elem_of_fmap. split.
  - intros (k & -> & [Hp Hs]%elem_of_member_keys).
    by rewrite <- (HasPrefix_inv _ _ Hp).
  - intros Hs. exists (data_prefix w set ++ x). split.
    + by rewrite drop_app_length.
    + apply elem_of_member_keys. split; [apply HasPrefix_app|done].
Qed.

Lemma NoDup_members_of (w : World) (set : Set_) : NoDup (members_of w set).
Proof.
  unfold members_of. apply NoDup_fmap_2_strong; [|apply NoDup_member_keys].
  intros k1 k2 [Hp1 _]%elem_of_member_keys [Hp2 _]%elem_of_member_keys E.
  rewrite (HasPrefix_inv _ _ Hp1), (HasPrefix_inv _ _ Hp2). by rewrite E.
Qed.

Lemma StronglySorted_strip (p : bytes) (L : list bytes) :
  Forall (fun k => HasPrefix k p = true) L ->
  StronglySorted bytes_le L ->
  StronglySorted bytes_le (drop (length p) <$> L).
Proof.
  intros HP HS. induction HS as [|k L HS IH Hk]; csimpl; [constructor|].
  apply Forall_cons in HP as [Hp HP]. constructor; [by apply IH|].
  rewrite Forall_fmap. rewrite Forall_forall in *. intros y Hy. simpl.
  specialize (Hk y Hy). specialize (HP y Hy). unfold bytes_le, bytes_leb in *.
  rewrite (HasPrefix_inv _ _ Hp), (HasPrefix_inv _ _ HP) in Hk.
  by rewrite bytes_compare_app in Hk.
Qed.

Lemma StronglySorted_members_of (w : World) (set : Set_) :
  StronglySorted bytes_le (members_of w set).
Proof.
  apply StronglySorted_strip; [|apply StronglySorted_member_keys].
  apply Forall_forall. intros k Hk. by apply elem_of_member_keys in Hk as [? _].
Qed.

(** The members are in the strict order of the store: every member of a
    front part is below every member outside it. *)
Lemma members_of_take_smallest (w : World) (set : Set_) (n : nat) (a b : bytes) :
  a ∈ take n (members_of w set) ->
  b ∈ members_of w set -> b ∉ take n (members_of w set) ->
  bytes_lt a b.
Proof.
  intros Ha Hb Hnb.
  assert (Hd : b ∈ drop n (members_of w set)).
  { apply elem_of_drop_NoDup; [apply NoDup_members_of|done]. }
  pose proof (StronglySorted_members_of w set) as HS.
  pose proof (NoDup_members_of w set) as HN.
  rewrite <- (take_drop n (members_of w set)) in HS, HN.
  apply bytes_le_lt.
  - by apply (StronglySorted_app_1_elem_of _ _ _ _ _ HS).
  - apply NoDup_app in HN as (_ & Hdisj & _). intros ->. by apply (Hdisj b).
Qed.

End Runs.

(** ** [SPop] *)

Section Pop.
Context `{Collaborators}.

(** What a run of [SPop] with [n] rounds does to a set whose [Len] is the
    number of its member keys. *)
Lemma SPop_effect (n : nat) (count : Z) d m c u (set : Set_) :
  let w := hworld d m c u in
  exists_ set = true ->
  Len (meta set) ≠ 0 ->
  Len (meta set) = Z.of_nat (length (members_of w set)) ->
  Len (meta set) <= max_int64 ->
  HasPrefix (MetaKey d (key set)) (data_prefix w set) = false ->
  (n <= length (members_of w set))%nat ->
  (∀ j : nat, (j < n)%nat -> int64 (count - Z.of_nat j) ≠ 0) ->
  n = length (members_of w set) \/ int64 (count - Z.of_nat n) = 0 ->
  int64 count = count ->
  ∃ w' set',
    SPop count (mkSt w set) = (mkSt w' set', Ok (take n (members_of w set)))
    /\ members_of w' set' = drop n (members_of w set)
    /\ (∀ a, a ∈ take n (members_of w set) ->
          t (txn w') !! setItemKey (DataKey d (ID (SetMeta_Object (meta set)))) a = None)
    /\ SCard (mkSt w' set') = (mkSt w' set', Ok (Len (meta set) - Z.of_nat n))
    /\ persisted w' set'
       = Some (encodeSetMeta
           (mkSetMeta (SetMeta_Object (meta set)) (Len (meta set) - Z.of_nat n)))
    /\ set' = mkSet (mkSetMeta (set_UpdatedAt (SetMeta_Object (meta set)) c)
                               (Len (meta set) - Z.of_nat n))
                    (key set) true.
Proof.
  intros w He Hnz HLen Hmax Hmk Hn Hbudget Hend Hc.
  assert (Hlen' : int64 (Len (meta set) - int64 (Z.of_nat n))
                  = Len (meta set) - Z.of_nat n).
  { unfold max_int64 in Hmax.
    rewrite (int64_small (Z.of_nat n)) by (unfold in_int64, min_int64, max_int64; lia).
    apply int64_small. unfold in_int64, min_int64, max_int64. lia. }
  unfold members_of in Hn, Hend. rewrite length_fmap in Hn, Hend.
  eexists _, _. split; [|split; [|split; [|split; [|split]]]].
  - unfold w. rewrite (SPop_run n) by done. rewrite Hlen'.
    unfold members_of. rewrite fmap_take. reflexivity.
  - unfold members_of at 1. cbn [txn t hworld].
    change (data_prefix _ _) with (data_prefix w set).
    rewrite member_keys_after_pop by done. by rewrite fmap_drop.
  - intros a Ha.
    assert (Hnot : a ∉ drop n (members_of w set)).
    { pose proof (NoDup_members_of w set) as HN.
      rewrite <- (take_drop n (members_of w set)) in HN.
      apply NoDup_app in HN as (_ & Hdisj & _). by apply Hdisj. }
    cbn [txn t hworld].
    rewrite lookup_insert_ne.
    + rewrite lookup_delete_keys. rewrite decide_True; [done|].
      unfold members_of in Ha. rewrite <- fmap_take in Ha.
      apply list_elem_of_fmap in Ha as (k & -> & Hk).
      assert (Hp : HasPrefix k (data_prefix w set) = true).
      { apply (subseteq_take n) in Hk.
        by apply elem_of_member_keys in Hk as [? _]. }
      change (setItemKey _ ?x) with (data_prefix w set ++ x).
      by rewrite <- (HasPrefix_inv _ _ Hp).
    + intros E. change (setItemKey _ ?x) with (data_prefix w set ++ x) in E.
      rewrite E, HasPrefix_app in Hmk. done.
  - reflexivity.
  - unfold persisted. cbn [txn t db hworld key].
    by rewrite lookup_insert_eq.
  - reflexivity.
Qed.

Lemma take_min_length {A} (a : nat) (l : list A) :
  take (Nat.min a (length l)) l = take a l.
Proof.
  destruct (Nat.le_gt_cases a (length l)) as [Hle|Hgt].
  - by rewrite Nat.min_l.
  - rewrite Nat.min_r by lia. by rewrite !take_ge by lia.
Qed.

Lemma drop_min_length {A} (a : nat) (l : list A) :
  drop (Nat.min a (length l)) l = drop a l.
Proof.
  destruct (Nat.le_gt_cases a (length l)) as [Hle|Hgt].
  - by rewrite Nat.min_l.
  - rewrite Nat.min_r by lia. by rewrite !drop_ge by lia.
Qed.

(** C4.  On an existing set of [k] members (its [Len] is the number of its
    member keys) and a store that does not fail, [SPop count] with
    [0 <= count] returns the first [count] members in the order of the
    store: exactly [min count k] of them, each below every member that is
    not returned; their keys are gone from the store, the remaining members
    are the others, and [SCard] has decreased by [min count k].  The
    cardinality in the store has decreased as well: the record persisted
    under the metadata key carries [Len - min count k]; for the empty set
    ([Len] 0) nothing is written and the record in the store stays as it
    is. *)
Theorem SPop_returns_smallest (w : World) (set : Set_) (count : Z) :
  healthy w ->
  exists_ set = true ->
  Len (meta set) = Z.of_nat (length (members_of w set)) ->
  Len (meta set) <= max_int64 ->
  0 <= count <= max_int64 ->
  HasPrefix (MetaKey (db (txn w)) (key set)) (data_prefix w set) = false ->
  let k := Z.of_nat (length (members_of w set)) in
  let popped := take (Z.to_nat count) (members_of w set) in
  ∃ w' set',
    SPop count (mkSt w set) = (mkSt w' set', Ok popped)
    /\ Z.of_nat (length popped) = Z.min count k
    /\ (∀ a b, a ∈ popped -> b ∈ members_of w set -> b ∉ popped -> bytes_lt a b)
    /\ (∀ a, a ∈ popped ->
          t (txn w') !! setItemKey (DataKey (db (txn w)) (ID (SetMeta_Object (meta set)))) a
          = None)
    /\ members_of w' set' = drop (Z.to_nat count) (members_of w set)
    /\ SCard (mkSt w' set') = (mkSt w' set', Ok (Len (meta set) - Z.min count k))
    /\ persisted w' set'
       = (if Len (meta set) =? 0 then persisted w set
          else Some (encodeSetMeta (mkSetMeta (SetMeta_Object (meta set))
                                              (Len (meta set) - Z.min count k)))).
Proof.
  intros Hh. destruct w as [[d m fs] c u]. unfold healthy in Hh. cbn in Hh. subst fs.
  change (mkWorld (mkTransaction d m []) c u) with (hworld d m c u).
  change (db (txn (hworld d m c u))) with d.
  set (w0 := hworld d m c u). intros He HLen Hmax Hcount Hmk k popped.
  unfold w0 in *. clear w0. set (w0 := hworld d m c u) in *.
  assert (Hlenp : Z.of_nat (length popped) = Z.min count k).
  { unfold popped, k. rewrite length_take. lia. }
  assert (Hsmall : ∀ a b, a ∈ popped -> b ∈ members_of w0 set -> b ∉ popped -> bytes_lt a b).
  { intros a b. apply members_of_take_smallest. }
  destruct (Z.eq_dec (Len (meta set)) 0) as [Hz|Hnz].
  - assert (Hnil : members_of w0 set = []).
    { apply nil_length_inv. lia. }
    exists w0, set. unfold popped, k in *. rewrite Hnil in *. rewrite take_nil, drop_nil.
    split; [|split; [|split; [|split; [|split; [|split]]]]].
    + unfold SPop, Exists, bind, getSelf, ret. cbn [self]. rewrite He, Hz. reflexivity.
    + cbn [length]. lia.
    + intros a b Ha. by apply elem_of_nil in Ha.
    + intros a Ha. by apply elem_of_nil in Ha.
    + reflexivity.
    + unfold SCard, Exists, bind, getSelf, ret. cbn [self]. rewrite He. cbn [negb].
      cbn [self length]. f_equal. f_equal. lia.
    + by rewrite Hz.
  - destruct (SPop_effect (Nat.min (Z.to_nat count) (length (members_of w0 set)))
                count d m c u set) as (w' & set' & Hrun & Hmem & Hdel & Hcard & Hper & _);
      fold w0; try done.
    + lia.
    + intros j Hj. unfold max_int64 in *.
      rewrite int64_small by (unfold in_int64, min_int64, max_int64; lia). lia.
    + destruct (Nat.le_gt_cases (Z.to_nat count) (length (members_of w0 set))).
      * right. rewrite Nat.min_l by done. rewrite Z2Nat.id by lia.
        by rewrite Z.sub_diag.
      * left. lia.
    + apply int64_small. unfold in_int64, min_int64, max_int64 in *. lia.
    + fold w0 in Hrun, Hmem, Hdel, Hcard, Hper.
      rewrite take_min_length in Hrun, Hdel. rewrite drop_min_length in Hmem.
      exists w', set'.
      split; [done|]. split; [done|]. split; [done|]. split; [done|]. split; [done|].
      split.
      * rewrite Hcard. do 3 f_equal. unfold k. lia.
      * destruct (Z.eqb_spec (Len (meta set)) 0) as [|_]; [done|].
        rewrite Hper. do 3 f_equal. unfold k. lia.
Qed.

(** C10.  On an existing non-empty set and a store that does not fail,
    [SPop count] with a negative [count] returns all the members: the budget
    is decremented away from zero and the loop ends when the keys do.  No
    member is left and the persisted [Len] is 0. *)
Theorem SPop_negative_returns_all (w : World) (set : Set_) (count : Z) :
  healthy w ->
  exists_ set = true ->
  Len (meta set) = Z.of_nat (length (members_of w set)) ->
  0 < Len (meta set) <= max_int64 ->
  min_int64 <= count < 0 ->
  HasPrefix (MetaKey (db (txn w)) (key set)) (data_prefix w set) = false ->
  ∃ w' set',
    SPop count (mkSt w set) = (mkSt w' set', Ok (members_of w set))
    /\ (∀ a, a ∈ members_of w set ->
          t (txn w') !! setItemKey (DataKey (db (txn w)) (ID (SetMeta_Object (meta set)))) a
          = None)
    /\ members_of w' set' = []
    /\ Len (meta set') = 0
    /\ persisted w' set' = Some (encodeSetMeta (mkSetMeta (SetMeta_Object (meta set)) 0)).
Proof.
  intros Hh. destruct w as [[d m fs] c u]. unfold healthy in Hh. cbn in Hh. subst fs.
  change (mkWorld (mkTransaction d m []) c u) with (hworld d m c u).
  change (db (txn (hworld d m c u))) with d.
  set (w0 := hworld d m c u). intros He HLen Hpos Hcount Hmk.
  unfold w0 in *. clear w0. set (w0 := hworld d m c u) in *.
  destruct (SPop_effect (length (members_of w0 set)) count d m c u set)
    as (w' & set' & Hrun & Hmem & Hdel & Hcard & Hper & Hset); fold w0; try done.
  - lia.
  - lia.
  - intros j Hj. rewrite int64_zero_iff. intros Hmod.
    apply Z.mod_divide in Hmod; [|lia]. destruct Hmod as [q Hq].
    unfold min_int64, max_int64 in *. lia.
  - by left.
  - apply int64_small. unfold in_int64, min_int64, max_int64 in *. lia.
  - fold w0 in Hrun, Hmem, Hdel, Hcard, Hper.
    rewrite firstn_all in Hrun, Hdel. rewrite drop_all in Hmem.
    rewrite <- HLen, Z.sub_diag in Hcard, Hper, Hset.
    exists w', set'. repeat split; try done.
    by rewrite Hset.
Qed.

End Pop.

(** C4, on the set {a, b, c}: popping two members returns [a] and [b] and
    leaves a cardinality of 1. *)
Lemma SPop_returns_smallest_witness :
  let _ := Ref.collaborators in
  let w := Demo.world_of Demo.store_abc [] in
  let set := Demo.set0 3 in
  ∃ w' set',
    SPop 2 (mkSt w set) = (mkSt w' set', Ok [[97]; [98]])
    /\ members_of w' set' = [[99]]
    /\ SCard (mkSt w' set') = (mkSt w' set', Ok 1)
    /\ persisted_meta w' set' = Some (Ok (mkSetMeta (Demo.obj0 0) 1)).
Proof.
  intros c w set.
  destruct (@SPop_returns_smallest c w set 2)
    as (w' & set' & Hrun & _ & _ & _ & Hmem & Hcard & Hper).
  - reflexivity.
  - reflexivity.
  - vm_compute. reflexivity.
  - vm_compute. discriminate.
  - unfold max_int64. lia.
  - vm_compute. reflexivity.
  - exists w', set'. split; [exact Hrun|]. split; [exact Hmem|]. split; [exact Hcard|].
    unfold persisted_meta. rewrite Hper. vm_compute. reflexivity.
Defined.

(** C10, on the set {a, b, c}: a count of -1 pops the three members. *)
Lemma SPop_negative_returns_all_witness :
  let _ := Ref.collaborators in
  let w := Demo.world_of Demo.store_abc [] in
  let set := Demo.set0 3 in
  ∃ w' set',
    SPop (-1) (mkSt w set) = (mkSt w' set', Ok [[97]; [98]; [99]])
    /\ members_of w' set' = []
    /\ Len (meta set') = 0.
Proof.
  intros c w set.
  destruct (@SPop_negative_returns_all c w set (-1))
    as (w' & set' & Hrun & _ & Hmem & Hlen & _).
  - reflexivity.
  - reflexivity.
  - vm_compute. reflexivity.
  - unfold max_int64. cbn. lia.
  - unfold min_int64. lia.
  - vm_compute. reflexivity.
  - exists w', set'. split; [exact Hrun|]. split; [exact Hmem|exact Hlen].
Defined.

(** ** [GetSet], [SIsmember] and [SMove] on a healthy store *)

Section Move.
Context `{Collaborators}.

(** [GetSet] on a store that does not fail: a missing record gives the fresh
    handle; a stored record is decoded and, when it is a set, returned with
    [exists_ = true].  The expiry test, made on the fresh handle, never
    holds. *)
Lemma GetSet_h (k : bytes) d m c u :
  GetSet k (hworld d m c u)
  = (hworld d m c (S u),
     match m !! MetaKey d k with
     | None => Ok (fresh_set k c u)
     | Some b =>
         match DecodeSetMeta (Some b) with
         | Ok smeta =>
             if Type_ (SetMeta_Object smeta) =? ObjectSet
             then Ok (mkSet smeta k true) else Err ErrTypeMismatch
         | Err e => Err e
         | Panic => Panic
         end
     end).
Proof.
  unfold GetSet, newSet, bind, Now, UUID, ret, get, try, lift_result, fail.
  cbn [hworld txn clock uuid_next db].
  change (mkWorld (mkTransaction d m []) c (S u)) with (hworld d m c (S u)).
  rewrite txn_Get_h. destruct (m !! MetaKey d k) as [b|]; [|reflexivity].
  destruct (DecodeSetMeta (Some b)) as [smeta| |]; try reflexivity.
  by destruct (Type_ (SetMeta_Object smeta) =? ObjectSet).
Qed.

Lemma SIsmember_h (member : bytes) d m c u (set : Set_) :
  exists_ set = true ->
  SIsmember member (mkSt (hworld d m c u) set)
  = (mkSt (hworld d m c u) set,
     match m !! setItemKey (DataKey d (ID (SetMeta_Object (meta set)))) member with
     | None => Ok 0
     | Some value => if bool_decide (value = SetNilValue) then Ok 1 else Err ErrSetNilValue
     end).
Proof.
  intros He. unfold SIsmember, Exists, bind, getSelf, ret, liftW, get, try, fail.
  cbn [self world]. rewrite He. cbn [negb self world].
  change (db (txn (hworld d m c u))) with d. rewrite txn_Get_h.
  destruct (m !! _) as [value|]; [|reflexivity].
  by destruct (bool_decide (value = SetNilValue)).
Qed.

(** C9.  [SMove] whose destination is the source's own logical key, with
    the member present in the source, on a store that does not fail and
    holds the record of the handle: the destination handle is the same set,
    the member is found in it and not added; the source then deletes the
    member key and decrements [Len].  The call returns 1, the member key is
    gone, and the persisted [Len] is one less. *)
Theorem SMove_to_itself_loses_member (w : World) (set : Set_) (member stored : bytes) :
  let ikey := setItemKey (DataKey (db (txn w)) (ID (SetMeta_Object (meta set)))) member in
  healthy w ->
  exists_ set = true ->
  t (txn w) !! ikey = Some SetNilValue ->
  persisted w set = Some stored ->
  DecodeSetMeta (Some stored) = Ok (meta set) ->
  Type_ (SetMeta_Object (meta set)) = ObjectSet ->
  MetaKey (db (txn w)) (key set) ≠ ikey ->
  0 < Len (meta set) <= max_int64 ->
  ∃ w' set',
    SMove (key set) member (mkSt w set) = (mkSt w' set', Ok 1)
    /\ t (txn w') !! ikey = None
    /\ snd (SIsmember member (mkSt w' set')) = Ok 0
    /\ Len (meta set') = Len (meta set) - 1
    /\ persisted w' set'
       = Some (encodeSetMeta (mkSetMeta (SetMeta_Object (meta set)) (Len (meta set) - 1))).
Proof.
  intros ikey Hh. destruct w as [[d m fs] c u]. unfold healthy in Hh. cbn in Hh. subst fs.
  change (mkWorld (mkTransaction d m []) c u) with (hworld d m c u) in *.
  change (db (txn (hworld d m c u))) with d in *.
  change (t (txn (hworld d m c u))) with m.
  intros He Hmem Hper Hdec Hty Hne HLen.
  unfold persisted in Hper. cbn [hworld txn t db] in Hper.
  assert (Hl : int64 (Len (meta set) - 1) = Len (meta set) - 1).
  { apply int64_small. unfold in_int64, min_int64, max_int64 in *. lia. }
  eexists _, _. split; [|split; [|split; [|split]]].
  - unfold SMove. unfold bind at 1. unfold Exists at 1, bind, getSelf, ret.
    cbn [self]. rewrite He. cbn [negb].
    rewrite (SIsmember_h member d m c u set He). fold ikey. rewrite Hmem.
    cbn [bool_decide decide_rel]. rewrite bool_decide_eq_true_2 by done.
    cbn [Z.eqb]. unfold try, liftW. cbn [world self]. rewrite GetSet_h, Hper, Hdec, Hty.
    rewrite Z.eqb_refl. unfold on_handle. cbn [world self].
    rewrite (SIsmember_h member d m c (S u)) by done.
    cbn [meta]. fold ikey. rewrite Hmem. rewrite bool_decide_eq_true_2 by done.
    cbn [Z.eqb world self]. unfold liftW, get. cbn [world self].
    change (db (txn (hworld d m c (S u)))) with d. fold ikey.
    rewrite txn_Delete_h. unfold setSelf. cbn [world self].
    rewrite updateMeta_h. cbn [set_Len meta key SetMeta_Object Len]. rewrite Hl.
    reflexivity.
  - cbn [world txn t hworld]. rewrite lookup_insert_ne by done.
    by rewrite lookup_delete_eq.
  - rewrite SIsmember_h by done. cbn [snd meta SetMeta_Object set_UpdatedAt ID].
    fold ikey. rewrite lookup_insert_ne by done. by rewrite lookup_delete_eq.
  - reflexivity.
  - unfold persisted. cbn [txn t db hworld key]. by rewrite lookup_insert_eq.
Qed.

End Move.

(** C9, on the set {a}: moving [a] from [k] to [k] returns 1 and leaves the
    set empty. *)
Lemma SMove_to_itself_loses_member_witness :
  let _ := Ref.collaborators in
  let w := Demo.world_of Demo.store_a [] in
  let set := Demo.set0 1 in
  ∃ w' set',
    SMove Demo.k_src [97] (mkSt w set) = (mkSt w' set', Ok 1)
    /\ members_of w' set' = []
    /\ Len (meta set') = 0.
Proof.
  intros c w set.
  destruct (@SMove_to_itself_loses_member c w set [97]
              (encodeSetMeta (mkSetMeta (Demo.obj0 0) 1)))
    as (w' & set' & Hrun & _ & _ & Hlen & _).
  - reflexivity.
  - reflexivity.
  - vm_compute. reflexivity.
  - vm_compute. reflexivity.
  - vm_compute. reflexivity.
  - reflexivity.
  - vm_compute. discriminate.
  - unfold max_int64. cbn. lia.
  - exists w', set'. split; [exact Hrun|]. split; [|exact Hlen].
    revert Hrun. vm_compute. intros Hrun. by inversion Hrun.
Defined.

(** ** [RemoveRepByMap] and [SAdd] *)

Lemma RemoveRepByMap_from_spec (members : list bytes) :
  ∀ (uniq : gset bytes) (result : list bytes),
    (∀ x, x ∈ uniq <-> x ∈ result) -> NoDup result ->
    NoDup (RemoveRepByMap_from uniq result members)
    /\ ∀ x, x ∈ RemoveRepByMap_from uniq result members <-> x ∈ result \/ x ∈ members.
Proof.
  induction members as [|m members IH]; intros uniq result Hu HN; cbn [RemoveRepByMap_from].
  - split; [done|]. intros x. rewrite elem_of_nil. tauto.
  - destruct (decide (m ∈ uniq)) as [Hin|Hnin].
    + destruct (IH uniq result Hu HN) as [HN' Hx]. split; [done|].
      intros x. rewrite Hx, elem_of_cons. split; [tauto|].
      intros [?|[->|?]]; auto. left. by apply Hu.
    + destruct (IH ({[m]} ∪ uniq) (result ++ [m])) as [HN' Hx].
      * intros x. rewrite elem_of_union, elem_of_singleton, elem_of_app, list_elem_of_singleton, Hu.
        tauto.
      * apply NoDup_app. split; [done|]. split; [|apply NoDup_singleton].
        intros x Hx ->%list_elem_of_singleton. by apply Hnin, Hu.
      * split; [done|]. intros x.
        rewrite Hx, elem_of_app, list_elem_of_singleton, elem_of_cons. tauto.
Qed.

Lemma NoDup_RemoveRepByMap (members : list bytes) : NoDup (RemoveRepByMap members).
Proof.
  apply (RemoveRepByMap_from_spec members ∅ []); [|constructor].
  intros x. rewrite elem_of_nil. set_solver.
Qed.

Lemma elem_of_RemoveRepByMap (members : list bytes) (x : bytes) :
  x ∈ RemoveRepByMap members <-> x ∈ members.
Proof.
  destruct (RemoveRepByMap_from_spec members ∅ []) as [_ Hx]; [|constructor|].
  - intros y. rewrite elem_of_nil. set_solver.
  - unfold RemoveRepByMap. rewrite Hx, elem_of_nil. tauto.
Qed.

Section Add.
Context `{Collaborators}.

(** The writing loop of [SAdd] on a healthy store: every key gets the
    sentinel, and the count grows by the number of nil values fetched. *)
Lemma SAdd_loop_run (ikeys : list bytes) :
  ∀ (pre vs : list (option bytes)) (added : Z) d m c u,
    length vs = length ikeys ->
    int64 added = added ->
    SAdd_loop ikeys (pre ++ vs) (length pre) added (hworld d m c u)
    = (hworld d (set_keys m ikeys) c u,
       Ok (int64 (added + Z.of_nat (length (filter (fun v => v = None) vs))))).
Proof.
  induction ikeys as [|ikey ikeys IH]; intros pre vs added d m c u Hlen Ha.
  - destruct vs; [|done]. cbn. by rewrite Z.add_0_r, Ha.
  - destruct vs as [|v vs]; [done|]. cbn [SAdd_loop].
    rewrite list_lookup_middle by done.
    unfold bind. rewrite txn_Set_h.
    replace (pre ++ v :: vs) with ((pre ++ [v]) ++ vs) by (by rewrite <- app_assoc).
    replace (S (length pre)) with (length (pre ++ [v])) by (rewrite length_app; simpl; lia).
    rewrite IH; [|by injection Hlen|by destruct v; [|apply int64_idem]].
    cbn [set_keys foldl]. f_equal. f_equal.
    destruct v as [b|].
    + by rewrite filter_cons_False by done.
    + rewrite filter_cons_True by done. rewrite int64_add_l. cbn [length]. f_equal. lia.
Qed.

Lemma filter_fetched_nil (m : gmap bytes bytes) (dkey : bytes) (ms : list bytes) :
  length (filter (fun v => v = None) ((fun k => m !! k) <$> (setItemKey dkey <$> ms)))
  = length (filter (fun x => m !! setItemKey dkey x = None) ms).
Proof.
  induction ms as [|x ms IH]; [done|]. csimpl.
  destruct (m !! setItemKey dkey x) eqn:E.
  - rewrite filter_cons_False by done. by rewrite filter_cons_False by congruence.
  - rewrite filter_cons_True by done. rewrite filter_cons_True by done.
    cbn [length]. by rewrite IH.
Qed.

(** [SAdd] on a healthy store. *)
Lemma SAdd_run (members : list bytes) d m c u (set : Set_) :
  let dkey := DataKey d (ID (SetMeta_Object (meta set))) in
  let ms := RemoveRepByMap members in
  let added := int64 (Z.of_nat (length (filter (fun x => m !! setItemKey dkey x = None) ms))) in
  let len' := int64 (Len (meta set) + added) in
  SAdd members (mkSt (hworld d m c u) set)
  = (mkSt (hworld d (<[MetaKey d (key set)
                       := encodeSetMeta (mkSetMeta (SetMeta_Object (meta set)) len')]>
                       (set_keys m (setItemKey dkey <$> ms))) c u)
          (mkSet (mkSetMeta (set_UpdatedAt (SetMeta_Object (meta set)) c) len')
                 (key set) true),
     Ok added).
Proof.
  intros dkey ms added len'.
  unfold SAdd, bind, getSelf, liftW, get, try, ret, setSelf. cbn [self world].
  change (db (txn (hworld d m c u))) with d. fold dkey. fold ms.
  rewrite BatchGetValues_h. cbn [self world].
  pose proof (SAdd_loop_run (setItemKey dkey <$> ms) []
                ((fun k => m !! k) <$> (setItemKey dkey <$> ms)) 0 d m c u) as Hloop.
  cbn [app length] in Hloop. rewrite Hloop; [|by rewrite !length_fmap|done].
  rewrite Z.add_0_l, filter_fetched_nil. fold added. cbn [self world].
  reflexivity.
Qed.

Lemma elem_of_member_set (w : World) (set : Set_) (x : bytes) :
  x ∈ member_set w set <-> is_Some (t (txn w) !! (data_prefix w set ++ x)).
Proof. unfold member_set. by rewrite elem_of_list_to_set, elem_of_members_of. Qed.

Lemma size_member_set (w : World) (set : Set_) :
  size (member_set w set) = length (members_of w set).
Proof. unfold member_set. apply size_list_to_set, NoDup_members_of. Qed.

Lemma elem_of_item_keys (dkey x : bytes) (ms : list bytes) :
  setItemKey dkey x ∈ setItemKey dkey <$> ms <-> x ∈ ms.
Proof.
  rewrite list_elem_of_fmap. split.
  - intros (y & E & Hy). unfold setItemKey in E. by apply app_inv_head in E as ->.
  - intros Hx. by exists x.
Qed.


End Add.


(** * Further properties of the operations *)

(** ** [RemoveRepByMap] *)

Lemma RemoveRepByMap_from_sublist (members : list bytes) :
  ∀ (uniq : gset bytes) (result : list bytes),
    ∃ r, RemoveRepByMap_from uniq result members = result ++ r /\ r `sublist_of` members.
Proof.
  induction members as [|m members IH]; intros uniq result; cbn [RemoveRepByMap_from].
  - exists []. by rewrite app_nil_r.
  - destruct (decide (m ∈ uniq)).
    + destruct (IH uniq result) as (r & -> & Hr). exists r. split; [done|].
      by apply sublist_cons.
    + destruct (IH ({[m]} ∪ uniq) (result ++ [m])) as (r & -> & Hr).
      exists (m :: r). split; [by rewrite <- app_assoc|]. by apply sublist_skip.
Qed.

(** X1.  [RemoveRepByMap] returns a list without duplicates that has the
    same elements as its input and keeps them in the order of the input. *)
Theorem RemoveRepByMap_dedup (members : list bytes) :
  NoDup (RemoveRepByMap members)
  /\ (∀ x, x ∈ RemoveRepByMap members <-> x ∈ members)
  /\ RemoveRepByMap members `sublist_of` members.
Proof.
  split; [apply NoDup_RemoveRepByMap|]. split; [apply elem_of_RemoveRepByMap|].
  destruct (RemoveRepByMap_from_sublist members ∅ []) as (r & Hr & Hs).
  unfold RemoveRepByMap. by rewrite Hr.
Qed.

Lemma RemoveRepByMap_from_NoDup (members : list bytes) :
  ∀ (uniq : gset bytes) (result : list bytes),
    (∀ x, x ∈ uniq <-> x ∈ result) -> NoDup (result ++ members) ->
    RemoveRepByMap_from uniq result members = result ++ members.
Proof.
  induction members as [|m members IH]; intros uniq result Hu HN; cbn [RemoveRepByMap_from].
  - by rewrite app_nil_r.
  - assert (Hm : m ∉ result).
    { apply NoDup_app in HN as (_ & Hdisj & _). intros Hin.
      apply (Hdisj m Hin). by left. }
    rewrite decide_False by (by rewrite Hu).
    rewrite IH.
    + by rewrite <- app_assoc.
    + intros x. rewrite elem_of_union, elem_of_singleton, elem_of_app,
        list_elem_of_singleton, Hu. tauto.
    + by rewrite <- app_assoc.
Qed.

(** A list without duplicates is returned as it is. *)
Lemma RemoveRepByMap_NoDup (members : list bytes) :
  NoDup members -> RemoveRepByMap members = members.
Proof.
  intros HN. unfold RemoveRepByMap.
  rewrite RemoveRepByMap_from_NoDup; [done| |done].
  intros x. rewrite elem_of_nil. set_solver.
Qed.

(** Applying [RemoveRepByMap] twice is applying it once. *)
Lemma RemoveRepByMap_idempotent (members : list bytes) :
  RemoveRepByMap (RemoveRepByMap members) = RemoveRepByMap members.
Proof. apply RemoveRepByMap_NoDup, NoDup_RemoveRepByMap. Qed.

(** ** The metadata codec *)

Section CodecMore.
Context `{Collaborators}.

(** X2.  On a buffer at least as long as the header, [DecodeSetMeta] fails
    with [ErrInvalidLength] when the part after the header is not 8 bytes
    long, whatever the object codec would say. *)
Theorem DecodeSetMeta_wrong_tail (b : bytes) :
  (ObjectEncodingLength <= length b)%nat ->
  length b ≠ (ObjectEncodingLength + 8)%nat ->
  DecodeSetMeta (Some b) = Err ErrInvalidLength.
Proof. intros Hb Hne. apply DecodeSetMeta_InvalidLength; [done|lia]. Qed.

(** X3.  On a buffer of exactly the header length plus 8, the outcome is
    that of the object codec on the whole buffer, and on success [Len] is
    the big-endian value of the last 8 bytes read as an [int64]. *)
Theorem DecodeSetMeta_exact_length (b : bytes) :
  length b = (ObjectEncodingLength + 8)%nat ->
  DecodeSetMeta (Some b)
  = match DecodeObject b with
    | Ok obj => Ok (mkSetMeta obj (int64 (BigEndian_Uint64 (drop ObjectEncodingLength b))))
    | Err e => Err e
    | Panic => Panic
    end.
Proof. apply DecodeSetMeta_exact_length_aux. Qed.

(** X4.  On the nil buffer [DecodeSetMeta] never succeeds: the length test
    is skipped, and either the object codec fails and its error is returned,
    or slicing the empty buffer panics. *)
Theorem DecodeSetMeta_nil :
  DecodeSetMeta None = Panic
  \/ ∃ e, DecodeSetMeta None = Err e /\ DecodeObject [] = Err e.
Proof.
  unfold DecodeSetMeta, slice_from, slice_to. cbn [default from_option id].
  destruct (DecodeObject []) as [obj|e|]; [left|right; by exists e|by left].
  destruct ObjectEncodingLength; cbn; done.
Qed.

(** Two records with the same header and different [int64]
    cardinalities have different encodings. *)
Lemma encodeSetMeta_Len_inj (obj : Object) (n1 n2 : Z) :
  in_int64 n1 -> in_int64 n2 ->
  encodeSetMeta (mkSetMeta obj n1) = encodeSetMeta (mkSetMeta obj n2) -> n1 = n2.
Proof.
  intros H1 H2 E. unfold encodeSetMeta in E. cbn [SetMeta_Object Len] in E.
  apply app_inv_head in E.
  apply (f_equal BigEndian_Uint64) in E.
  rewrite !BigEndian_Uint64_PutUint64 in E by apply uint64_range.
  apply (f_equal int64) in E. by rewrite !int64_uint64 in E.
Qed.

End CodecMore.

Lemma DecodeSetMeta_wrong_tail_witness :
  @DecodeSetMeta Ref.collaborators (Some (replicate 45 0)) = Err ErrInvalidLength.
Proof.
  apply (@DecodeSetMeta_wrong_tail Ref.collaborators).
  - vm_compute. lia.
  - vm_compute. lia.
Defined.

Lemma DecodeSetMeta_exact_length_witness :
  @DecodeSetMeta Ref.collaborators (Some (replicate 49 0 ++ [7]))
  = Ok (mkSetMeta (mkObject (replicate 16 0) 0 0 0 0 0) 7).
Proof.
  etransitivity.
  - apply (@DecodeSetMeta_exact_length Ref.collaborators). reflexivity.
  - reflexivity.
Defined.

(** ** [GetSet] *)

Section Load.
Context `{Collaborators}.

(** X5.  [GetSet] never writes: whatever the store holds and whichever
    calls fail, the transaction and the clock are the same afterwards. *)
Theorem GetSet_does_not_write (k : bytes) (w : World) :
  txn (fst (GetSet k w)) = txn w /\ clock (fst (GetSet k w)) = clock w.
Proof.
  unfold GetSet, newSet, bind, Now, UUID, ret, get, try, lift_result, fail, txn_Get.
  cbn [txn clock].
  destruct (fault_of (faults (txn w)) (OpGet (MetaKey (db (txn w)) k))) as [e|].
  - by destruct (IsErrNotFound e).
  - destruct (t (txn w) !! MetaKey (db (txn w)) k) as [b|]; [|done].
    destruct (DecodeSetMeta (Some b)) as [smeta| |]; try done.
    by destruct (negb (Type_ (SetMeta_Object smeta) =? ObjectSet)).
Qed.

(** X6.  When the store has no record under the metadata key, [GetSet]
    returns a handle that does not exist yet: a new identifier, both
    timestamps at the current time, no expiration, [Len] 0. *)
Theorem GetSet_missing (k : bytes) (w : World) :
  healthy w ->
  t (txn w) !! MetaKey (db (txn w)) k = None ->
  snd (GetSet k w)
  = Ok (mkSet (mkSetMeta (mkObject (UUID_at (uuid_next w)) (clock w) (clock w) 0
                                   ObjectSet ObjectEncodingHT) 0) k false).
Proof.
  intros Hh Hk. rewrite (healthy_hworld w Hh). rewrite GetSet_h.
  cbn [snd]. by rewrite Hk.
Qed.

(** X7.  A stored record that decodes with a type tag other than
    [ObjectSet] makes [GetSet] fail with [ErrTypeMismatch]. *)
Theorem GetSet_type_mismatch (k b : bytes) (smeta : SetMeta) (w : World) :
  healthy w ->
  t (txn w) !! MetaKey (db (txn w)) k = Some b ->
  DecodeSetMeta (Some b) = Ok smeta ->
  Type_ (SetMeta_Object smeta) ≠ ObjectSet ->
  snd (GetSet k w) = Err ErrTypeMismatch.
Proof.
  intros Hh Hk Hd Hty. rewrite (healthy_hworld w Hh). rewrite GetSet_h.
  cbn [snd]. rewrite Hk, Hd. by destruct (Z.eqb_spec (Type_ (SetMeta_Object smeta)) ObjectSet).
Qed.

(** X8.  A stored record that decodes as a set is returned as the
    metadata of an existing handle, whatever its expiration time: the
    expiry test is made on the fresh handle and never holds. *)
Theorem GetSet_loads_record (k b : bytes) (smeta : SetMeta) (w : World) :
  healthy w ->
  t (txn w) !! MetaKey (db (txn w)) k = Some b ->
  DecodeSetMeta (Some b) = Ok smeta ->
  Type_ (SetMeta_Object smeta) = ObjectSet ->
  snd (GetSet k w) = Ok (mkSet smeta k true).
Proof.
  intros Hh Hk Hd Hty. rewrite (healthy_hworld w Hh). rewrite GetSet_h.
  cbn [snd]. by rewrite Hk, Hd, Hty, Z.eqb_refl.
Qed.

(** A record that does not decode makes [GetSet] fail with the error
    of the decoder. *)
Lemma GetSet_undecodable (k b : bytes) (e : error) (w : World) :
  healthy w ->
  t (txn w) !! MetaKey (db (txn w)) k = Some b ->
  DecodeSetMeta (Some b) = Err e ->
  snd (GetSet k w) = Err e.
Proof.
  intros Hh Hk Hd. rewrite (healthy_hworld w Hh). rewrite GetSet_h.
  cbn [snd]. by rewrite Hk, Hd.
Qed.

(** X9.  An error of the store on the read of the record, other than
    not-found, is returned by [GetSet]. *)
Theorem GetSet_store_error (k : bytes) (e : error) (w : World) :
  fault_of (faults (txn w)) (OpGet (MetaKey (db (txn w)) k)) = Some e ->
  e ≠ ErrNotFound ->
  snd (GetSet k w) = Err e.
Proof.
  intros Hf Hne.
  unfold GetSet, newSet, bind, Now, UUID, ret, get, try, lift_result, fail, txn_Get.
  cbn [txn clock]. rewrite Hf. unfold IsErrNotFound.
  by rewrite bool_decide_eq_false_2.
Qed.

End Load.

(** ** Handles of sets that do not exist *)

Section Absent.
Context `{Collaborators}.

(** X10.  On a handle that does not exist, the reading and removing
    operations return zero or the empty list with no error and touch neither
    the store nor the handle, whatever the store holds and whichever calls
    would fail. *)
Theorem absent_set_operations (s : St) (member destination : bytes)
    (members : list bytes) (count : Z) :
  exists_ (self s) = false ->
  SCard s = (s, Ok 0)
  /\ SIsmember member s = (s, Ok 0)
  /\ SMembers s = (s, Ok [])
  /\ SPop count s = (s, Ok [])
  /\ SRem members s = (s, Ok 0)
  /\ SMove destination member s = (s, Ok 0).
Proof.
  intros He.
  unfold SCard, SIsmember, SMembers, SPop, SRem, SMove, Exists, bind, getSelf, ret.
  rewrite He. cbn [negb orb]. done.
Qed.

(** [SCard] of an existing handle is its [Len], read from the handle
    without any call to the store. *)
Lemma SCard_existing (s : St) :
  exists_ (self s) = true -> SCard s = (s, Ok (Len (meta (self s)))).
Proof.
  intros He. unfold SCard, Exists, bind, getSelf, ret. by rewrite He.
Qed.

End Absent.

(** ** [SIsmember] *)

Section Member.
Context `{Collaborators}.

(** X11.  On a store that does not fail, [SIsmember] of an existing set
    answers 1 when the member key holds the sentinel, 0 when the key is
    absent, and fails with [ErrSetNilValue] when it holds anything else; it
    changes neither the store nor the handle. *)
Theorem SIsmember_outcomes (member : bytes) (w : World) (set : Set_) :
  healthy w ->
  exists_ set = true ->
  SIsmember member (mkSt w set)
  = (mkSt w set,
     match t (txn w) !! setItemKey (DataKey (db (txn w)) (ID (SetMeta_Object (meta set)))) member with
     | None => Ok 0
     | Some value => if bool_decide (value = SetNilValue) then Ok 1 else Err ErrSetNilValue
     end).
Proof.
  intros Hh He. rewrite (healthy_hworld w Hh). by rewrite SIsmember_h.
Qed.

(** X12.  An error of the store on the read of the member key, other than
    not-found, is returned by [SIsmember]; a not-found error is answered
    with 0. *)
Theorem SIsmember_store_error (member : bytes) (e : error) (w : World) (set : Set_) :
  exists_ set = true ->
  fault_of (faults (txn w))
    (OpGet (setItemKey (DataKey (db (txn w)) (ID (SetMeta_Object (meta set)))) member))
  = Some e ->
  SIsmember member (mkSt w set)
  = (mkSt w set, if IsErrNotFound e then Ok 0 else Err e).
Proof.
  intros He Hf.
  unfold SIsmember, Exists, bind, getSelf, ret, liftW, get, try, fail, txn_Get.
  cbn [self world]. rewrite He. cbn [negb self world]. rewrite Hf.
  by destruct (IsErrNotFound e).
Qed.

End Member.

(** A healthy world is taken apart into its database, store, clock and
    identifier position. *)
Ltac healthy_world Hh w d m c u :=
  destruct w as [[d m ?fs] c u]; unfold healthy in Hh; cbn in Hh; subst;
  change (mkWorld (mkTransaction d m []) c u) with (hworld d m c u) in *;
  change (db (txn (hworld d m c u))) with d in *;
  change (t (txn (hworld d m c u))) with m in *;
  change (clock (hworld d m c u)) with c in *;
  change (uuid_next (hworld d m c u)) with u in *.

(** ** [SAdd] *)

Section AddMore.
Context `{Collaborators}.

(** The final state of [SAdd] on a healthy store, for a set whose [Len] is
    the number of its members. *)
Lemma SAdd_effect (members : list bytes) d m c u (set : Set_) :
  let w := hworld d m c u in
  let before := member_set w set in
  let input : gset bytes := list_to_set members in
  let dkey := DataKey d (ID (SetMeta_Object (meta set))) in
  let n := Z.of_nat (size (input ∖ before)) in
  let w' := hworld d (<[MetaKey d (key set)
                        := encodeSetMeta (mkSetMeta (SetMeta_Object (meta set))
                                                    (Len (meta set) + n))]>
                        (set_keys m (setItemKey dkey <$> RemoveRepByMap members))) c u in
  let set' := mkSet (mkSetMeta (set_UpdatedAt (SetMeta_Object (meta set)) c)
                               (Len (meta set) + n)) (key set) true in
  Len (meta set) = Z.of_nat (size before) ->
  Z.of_nat (size (before ∪ input)) <= max_int64 ->
  HasPrefix (MetaKey d (key set)) (data_prefix w set) = false ->
  SAdd members (mkSt w set) = (mkSt w' set', Ok n)
  /\ member_set w' set' = before ∪ input
  /\ Len (meta set) + n = Z.of_nat (size (before ∪ input)).
Proof.
  intros w before input dkey n w' set' HLen Hmax Hmk.
  set (ms := RemoveRepByMap members).
  set (A := filter (fun x => m !! setItemKey dkey x = None) ms).
  assert (HA : list_to_set A = input ∖ before).
  { apply set_eq. intros x. unfold A, input, before.
    rewrite elem_of_difference, !elem_of_list_to_set, list_elem_of_filter.
    rewrite elem_of_member_set. unfold ms. rewrite elem_of_RemoveRepByMap.
    change (t (txn w) !! (data_prefix w set ++ x)) with (m !! setItemKey dkey x).
    rewrite <- eq_None_not_Some. tauto. }
  assert (HsA : size (input ∖ before) = length A).
  { rewrite <- HA. apply size_list_to_set, NoDup_filter, NoDup_RemoveRepByMap. }
  pose proof (size_union_alt before input) as Hsz.
  assert (Hadd : int64 (Z.of_nat (length A)) = n).
  { unfold n. rewrite HsA. apply int64_small.
    unfold in_int64, min_int64, max_int64 in *. lia. }
  assert (Hsum : Len (meta set) + n = Z.of_nat (size (before ∪ input))).
  { unfold n. lia. }
  assert (Hlen' : int64 (Len (meta set) + n) = Len (meta set) + n).
  { rewrite Hsum. apply int64_small. unfold in_int64, min_int64, max_int64 in *. lia. }
  split; [|split; [|done]].
  - unfold w. rewrite SAdd_run. fold dkey. fold ms. fold A. rewrite Hadd, Hlen'. reflexivity.
  - apply set_eq. intros x. rewrite elem_of_member_set.
    unfold w'. cbn [txn t hworld].
    change (data_prefix _ _ ++ x) with (setItemKey dkey x).
    rewrite lookup_insert_ne.
    2:{ intros E. change (setItemKey dkey x) with (data_prefix w set ++ x) in E.
        rewrite E, HasPrefix_app in Hmk. done. }
    rewrite lookup_set_keys, elem_of_union.
    unfold input, before. rewrite elem_of_list_to_set, elem_of_member_set.
    change (t (txn w) !! (data_prefix w set ++ x)) with (m !! setItemKey dkey x).
    fold ms.
    destruct (decide (setItemKey dkey x ∈ setItemKey dkey <$> ms)) as [Hin|Hnin].
    + rewrite elem_of_item_keys in Hin. unfold ms in Hin.
      rewrite elem_of_RemoveRepByMap in Hin.
      split; [by right|by eexists].
    + rewrite elem_of_item_keys in Hnin. unfold ms in Hnin.
      rewrite elem_of_RemoveRepByMap in Hnin. tauto.
Qed.

(** X13.  [SAdd] keeps the cardinality invariant: when [Len] is the number
    of members before the call, it is the number of members after it, and
    the handle exists. *)
Theorem SAdd_keeps_Len_invariant (members : list bytes) (w : World) (set : Set_) :
  healthy w ->
  Len (meta set) = Z.of_nat (size (member_set w set)) ->
  Z.of_nat (size (member_set w set ∪ list_to_set members)) <= max_int64 ->
  HasPrefix (MetaKey (db (txn w)) (key set)) (data_prefix w set) = false ->
  let s' := fst (SAdd members (mkSt w set)) in
  Len (meta (self s')) = Z.of_nat (size (member_set (world s') (self s')))
  /\ exists_ (self s') = true
  /\ healthy (world s').
Proof.
  intros Hh. healthy_world Hh w d m c u. intros HLen Hmax Hmk.
  destruct (SAdd_effect members _ _ _ _ set HLen Hmax Hmk) as (Hrun & Hmem & Hsum).
  intros s'. unfold s'. rewrite Hrun. cbn [fst self world meta Len exists_].
  rewrite Hmem. done.
Qed.

(** X14.  After [SAdd], every member of the list is a member of the set:
    [SIsmember] answers 1. *)
Theorem SAdd_then_SIsmember (members : list bytes) (x : bytes) (w : World) (set : Set_) :
  healthy w ->
  x ∈ members ->
  MetaKey (db (txn w)) (key set)
    ≠ setItemKey (DataKey (db (txn w)) (ID (SetMeta_Object (meta set)))) x ->
  snd (SIsmember x (fst (SAdd members (mkSt w set)))) = Ok 1.
Proof.
  intros Hh. healthy_world Hh w d m c u. intros Hx Hne.
  rewrite SAdd_run. cbn [fst]. rewrite SIsmember_h by done.
  cbn [snd meta SetMeta_Object set_UpdatedAt ID].
  rewrite lookup_insert_ne by done. rewrite lookup_set_keys.
  rewrite decide_True; [done|].
  apply elem_of_item_keys. by apply elem_of_RemoveRepByMap.
Qed.

(** X15.  [SAdd] writes the member keys of the list and the metadata key,
    and no other key. *)
Theorem SAdd_writes_only_its_keys (members : list bytes) (k : bytes) (w : World) (set : Set_) :
  healthy w ->
  k ≠ MetaKey (db (txn w)) (key set) ->
  (∀ x, x ∈ members ->
        k ≠ setItemKey (DataKey (db (txn w)) (ID (SetMeta_Object (meta set)))) x) ->
  t (txn (world (fst (SAdd members (mkSt w set))))) !! k = t (txn w) !! k.
Proof.
  intros Hh. healthy_world Hh w d m c u. intros Hmk Hk.
  rewrite SAdd_run. cbn [fst world txn t hworld].
  rewrite lookup_insert_ne by done. rewrite lookup_set_keys.
  rewrite decide_False; [done|].
  intros (x & -> & Hx)%list_elem_of_fmap.
  rewrite elem_of_RemoveRepByMap in Hx. by apply (Hk x).
Qed.

(** X16.  Adding the same list a second time adds nothing: the second call
    returns 0 and the cardinality stays the same. *)
Theorem SAdd_twice (members : list bytes) (w : World) (set : Set_) :
  healthy w ->
  Len (meta set) = Z.of_nat (size (member_set w set)) ->
  Z.of_nat (size (member_set w set ∪ list_to_set members)) <= max_int64 ->
  HasPrefix (MetaKey (db (txn w)) (key set)) (data_prefix w set) = false ->
  let s1 := fst (SAdd members (mkSt w set)) in
  let s2 := fst (SAdd members s1) in
  snd (SAdd members s1) = Ok 0
  /\ Len (meta (self s2)) = Len (meta (self s1))
  /\ member_set (world s2) (self s2) = member_set (world s1) (self s1).
Proof.
  intros Hh. healthy_world Hh w d m c u. intros HLen Hmax Hmk.
  destruct (SAdd_effect members d m c u set HLen Hmax Hmk) as (Hrun & Hmem & Hsum).
  match type of Hrun with
  | _ = (mkSt (hworld _ ?m1 _ _) ?set1, _) => set (M1 := m1) in *; set (S1 := set1) in *
  end.
  assert (Hempty : (list_to_set members : gset bytes)
                   ∖ (member_set (hworld d m c u) set ∪ list_to_set members) = ∅).
  { apply set_eq. intros x.
    rewrite elem_of_difference, elem_of_union, elem_of_empty. tauto. }
  assert (Hidem : member_set (hworld d m c u) set ∪ list_to_set members ∪ list_to_set members
                  = member_set (hworld d m c u) set ∪ list_to_set members).
  { apply set_eq. intros x. rewrite !elem_of_union. tauto. }
  destruct (SAdd_effect members d M1 c u S1) as (Hrun2 & Hmem2 & Hsum2).
  - rewrite Hmem. exact Hsum.
  - rewrite Hmem, Hidem. exact Hmax.
  - exact Hmk.
  - intros s1 s2. unfold s2, s1. rewrite Hrun. cbn [fst]. rewrite Hrun2.
    cbn [fst snd self world meta Len]. rewrite Hmem2, Hmem, Hempty, Hidem.
    rewrite size_empty. cbn [Z.of_nat]. rewrite Z.add_0_r. done.
Qed.

End AddMore.

(** ** Persistence: [updateMeta] and what a later [GetSet] reads *)

Section Persist.
Context `{Collaborators}.

(** Decoding the encoding of a record, for a codec that reads back what it
    wrote. *)
Lemma decode_encode (sm : SetMeta) :
  length (EncodeObject (SetMeta_Object sm)) = ObjectEncodingLength ->
  DecodeObject (encodeSetMeta sm) = Ok (SetMeta_Object sm) ->
  in_int64 (Len sm) ->
  DecodeSetMeta (Some (encodeSetMeta sm)) = Ok sm.
Proof.
  intros Hlen Hdec HLen. rewrite DecodeSetMeta_exact_length_aux.
  - rewrite Hdec. unfold encodeSetMeta. rewrite <- Hlen, drop_app_length.
    rewrite BigEndian_Uint64_PutUint64 by apply uint64_range.
    rewrite int64_uint64 by done. by destruct sm.
  - unfold encodeSetMeta. by rewrite length_app, Hlen, length_BigEndian_PutUint64.
Qed.

(** X18.  When the write of the record fails, [updateMeta] returns the
    error of the store and leaves the store and the handle as they were: a
    handle that did not exist still does not. *)
Theorem updateMeta_write_error (e : error) (s : St) :
  fault_of (faults (txn (world s)))
    (OpSet (MetaKey (db (txn (world s))) (key (self s)))) = Some e ->
  updateMeta s = (s, Err e).
Proof.
  intros Hf. unfold updateMeta, bind, getSelf, liftW, get, txn_Set.
  cbn [self world]. rewrite Hf. by destruct s.
Qed.

(** X19.  What [updateMeta] persists is what a later [GetSet] loads: on a
    store that does not fail, after [updateMeta] on a handle of type set,
    [GetSet] of the same key returns an existing handle with the metadata
    the handle had when [updateMeta] was called. *)
Theorem updateMeta_then_GetSet (w : World) (set : Set_) :
  healthy w ->
  length (EncodeObject (SetMeta_Object (meta set))) = ObjectEncodingLength ->
  DecodeObject (encodeSetMeta (meta set)) = Ok (SetMeta_Object (meta set)) ->
  in_int64 (Len (meta set)) ->
  Type_ (SetMeta_Object (meta set)) = ObjectSet ->
  snd (GetSet (key set) (world (fst (updateMeta (mkSt w set)))))
  = Ok (mkSet (meta set) (key set) true).
Proof.
  intros Hh. healthy_world Hh w d m c u. intros Hlen Hdec HLen Hty.
  rewrite updateMeta_h. cbn [fst world]. rewrite GetSet_h. cbn [snd].
  rewrite lookup_insert_eq, decode_encode by done.
  by rewrite Hty, Z.eqb_refl.
Qed.

End Persist.

(** ** [SAdd]: what is persisted, and a failed write *)

Section AddPersist.
Context `{Collaborators}.

(** The record [SAdd] persists is the header the handle had before
    the call followed by the new cardinality. *)
Lemma SAdd_persists_new_Len (members : list bytes) (w : World) (set : Set_) :
  healthy w ->
  Len (meta set) = Z.of_nat (size (member_set w set)) ->
  Z.of_nat (size (member_set w set ∪ list_to_set members)) <= max_int64 ->
  HasPrefix (MetaKey (db (txn w)) (key set)) (data_prefix w set) = false ->
  let s' := fst (SAdd members (mkSt w set)) in
  persisted (world s') (self s')
  = Some (encodeSetMeta (mkSetMeta (SetMeta_Object (meta set))
            (Z.of_nat (size (member_set w set ∪ list_to_set members))))).
Proof.
  intros Hh. healthy_world Hh w d m c u. intros HLen Hmax Hmk.
  destruct (SAdd_effect members _ _ _ _ set HLen Hmax Hmk) as (Hrun & Hmem & Hsum).
  intros s'. unfold s'. rewrite Hrun. unfold persisted.
  cbn [fst self world txn t db hworld key]. rewrite lookup_insert_eq. by rewrite Hsum.
Qed.

(** The writing loop stops at the first write that fails; the keys it has
    written are among the keys it was given. *)
Lemma SAdd_loop_fault (ikeys : list bytes) :
  ∀ (values : list (option bytes)) (i : nat) (added : Z) (w : World),
    (∀ j, (j < length ikeys)%nat -> is_Some (values !! (i + j)%nat)) ->
    (∃ k e, k ∈ ikeys /\ fault_of (faults (txn w)) (OpSet k) = Some e) ->
    ∃ w' e, SAdd_loop ikeys values i added w = (w', Err e)
            /\ (∀ k', k' ∉ ikeys -> t (txn w') !! k' = t (txn w) !! k').
Proof.
  induction ikeys as [|k0 ikeys IH]; intros values i added w Hv (k & e & Hk & Hf).
  - by apply elem_of_nil in Hk.
  - cbn [SAdd_loop].
    destruct (Hv O) as [v Hv0]; [simpl; lia|]. rewrite Nat.add_0_r in Hv0. rewrite Hv0.
    unfold bind, txn_Set.
    destruct (fault_of (faults (txn w)) (OpSet k0)) as [e0|] eqn:Hf0.
    + exists w, e0. done.
    + apply elem_of_cons in Hk as [->|Hk]; [congruence|].
      destruct (IH values (S i)
                  (match v with Some _ => added | None => int64 (added + 1) end)
                  (with_t w (<[k0:=SetNilValue]> (t (txn w))))) as (w' & e' & Hrun & Hkeep).
      * intros j Hj. replace (S i + j)%nat with (i + S j)%nat by lia.
        apply Hv. simpl. lia.
      * exists k, e. done.
      * exists w', e'. split; [done|].
        intros k' Hk'. rewrite Hkeep by (intros ?; apply Hk'; by right).
        cbn [with_t txn t]. apply lookup_insert_ne. intros ->. apply Hk'. by left.
Qed.

(** X17.  When the batch fetch succeeds and the write of one of the member
    keys fails, [SAdd] returns an error, the handle keeps its [Len], and the
    metadata record is not written. *)
Theorem SAdd_write_error (members : list bytes) (x : bytes) (e0 : error)
    (w : World) (set : Set_) :
  let dkey := DataKey (db (txn w)) (ID (SetMeta_Object (meta set))) in
  fault_of (faults (txn w)) OpBatchGet = None ->
  x ∈ members ->
  fault_of (faults (txn w)) (OpSet (setItemKey dkey x)) = Some e0 ->
  (∀ y, y ∈ members -> MetaKey (db (txn w)) (key set) ≠ setItemKey dkey y) ->
  let s' := fst (SAdd members (mkSt w set)) in
  (∃ e, snd (SAdd members (mkSt w set)) = Err e)
  /\ self s' = set
  /\ t (txn (world s')) !! MetaKey (db (txn w)) (key set)
     = t (txn w) !! MetaKey (db (txn w)) (key set).
Proof.
  intros dkey Hb Hx Hf Hmk.
  unfold SAdd, bind, getSelf, liftW, get, try, ret, BatchGetValues.
  cbn [self world]. rewrite Hb. cbn [self world]. fold dkey.
  destruct (SAdd_loop_fault (setItemKey dkey <$> RemoveRepByMap members)
              ((fun k => t (txn w) !! k) <$> (setItemKey dkey <$> RemoveRepByMap members))
              0 0 w) as (w' & e & Hrun & Hkeep).
  - intros j Hj. apply lookup_lt_is_Some. by rewrite length_fmap.
  - exists (setItemKey dkey x), e0. split; [|done].
    apply elem_of_item_keys. by apply elem_of_RemoveRepByMap.
  - rewrite Hrun. cbn [fst snd self world]. split; [by exists e|]. split; [done|].
    apply Hkeep. intros (y & E & Hy)%list_elem_of_fmap.
    rewrite elem_of_RemoveRepByMap in Hy. by apply (Hmk y).
Qed.

End AddPersist.

(** ** [SRem] *)

Lemma filter_ext_elem {A} (P Q : A -> Prop) `{∀ x, Decision (P x)} `{∀ x, Decision (Q x)}
    (l : list A) :
  (∀ x, x ∈ l -> P x <-> Q x) -> filter P l = filter Q l.
Proof.
  induction l as [|x l IH]; intros HPQ; [done|].
  rewrite !filter_cons. rewrite IH by (intros y Hy; apply HPQ; by right).
  destruct (decide (P x)) as [HP|HP], (decide (Q x)) as [HQ|HQ]; try done.
  - by apply HPQ in HP; [|left].
  - by apply HPQ in HQ; [|left].
Qed.

Section Rem.
Context `{Collaborators}.

(** The loop of [SRem] on a healthy store: the members whose key holds the
    sentinel are deleted and counted; the others are passed over. *)
Lemma SRem_loop_run (dkey : bytes) (ms : list bytes) :
  ∀ (num : Z) d m c u,
    NoDup ms ->
    int64 num = num ->
    let hit := filter (fun x => m !! setItemKey dkey x = Some SetNilValue) ms in
    SRem_loop dkey ms num (hworld d m c u)
    = (hworld d (delete_keys m (setItemKey dkey <$> hit)) c u,
       Ok (int64 (num + Z.of_nat (length hit)))).
Proof.
  induction ms as [|x ms IH]; intros num d m c u HN Hnum hit.
  - cbn. by rewrite Z.add_0_r, Hnum.
  - apply NoDup_cons in HN as [Hx HN]. cbn [SRem_loop].
    unfold bind, try. rewrite txn_Get_h. unfold hit. rewrite filter_cons.
    destruct (m !! setItemKey dkey x) as [value|] eqn:Hv.
    + destruct (decide (value = SetNilValue)) as [->|Hne].
      * rewrite bool_decide_eq_true_2 by done. rewrite txn_Delete_h.
        rewrite decide_True by done.
        rewrite IH by (done || apply int64_idem).
        assert (Hsame : filter (fun y => delete (setItemKey dkey x) m !! setItemKey dkey y
                                          = Some SetNilValue) ms
                        = filter (fun y => m !! setItemKey dkey y = Some SetNilValue) ms).
        { apply filter_ext_elem. intros y Hy.
          rewrite lookup_delete_ne; [done|].
          unfold setItemKey. intros E. apply app_inv_head in E. by subst. }
        rewrite Hsame. cbn [fmap list_fmap delete_keys foldl length].
        rewrite int64_add_l. do 3 f_equal. lia.
      * rewrite bool_decide_eq_false_2 by done.
        rewrite decide_False by (intros [= ->]; done).
        by rewrite IH.
    + change (IsErrNotFound ErrNotFound) with true. cbn iota.
      rewrite decide_False by done. by rewrite IH.
Qed.

(** [SRem] on an existing set and a healthy store. *)
Lemma SRem_run (members : list bytes) d m c u (set : Set_) :
  let dkey := DataKey d (ID (SetMeta_Object (meta set))) in
  let hit := filter (fun x => m !! setItemKey dkey x = Some SetNilValue)
                    (RemoveRepByMap members) in
  let num := int64 (Z.of_nat (length hit)) in
  let len' := int64 (Len (meta set) - num) in
  exists_ set = true ->
  SRem members (mkSt (hworld d m c u) set)
  = (mkSt (hworld d (<[MetaKey d (key set)
                       := encodeSetMeta (mkSetMeta (SetMeta_Object (meta set)) len')]>
                       (delete_keys m (setItemKey dkey <$> hit))) c u)
          (mkSet (mkSetMeta (set_UpdatedAt (SetMeta_Object (meta set)) c) len')
                 (key set) true),
     Ok num).
Proof.
  intros dkey hit num len' He.
  unfold SRem, Exists, bind, getSelf, liftW, get, ret, setSelf.
  cbn [self world]. rewrite He. cbn [negb self world].
  change (db (txn (hworld d m c u))) with d. fold dkey.
  rewrite SRem_loop_run by (done || apply NoDup_RemoveRepByMap).
  rewrite Z.add_0_l. fold hit. fold num. cbn [self world]. reflexivity.
Qed.

End Rem.

Section RemMore.
Context `{Collaborators}.

(** X20.  On a store that does not fail and whose member keys all hold the
    sentinel, for a set whose [Len] is the number of its members, [SRem]
    returns the number of distinct members of the list that are in the set,
    the members afterwards are the former ones that are not in the list, and
    [Len] is their number. *)
Theorem SRem_removes_members (members : list bytes) (w : World) (set : Set_) :
  let dkey := DataKey (db (txn w)) (ID (SetMeta_Object (meta set))) in
  let before := member_set w set in
  let input : gset bytes := list_to_set members in
  healthy w ->
  exists_ set = true ->
  Len (meta set) = Z.of_nat (size before) ->
  Len (meta set) <= max_int64 ->
  HasPrefix (MetaKey (db (txn w)) (key set)) (data_prefix w set) = false ->
  (∀ x v, x ∈ members -> t (txn w) !! setItemKey dkey x = Some v -> v = SetNilValue) ->
  let s' := fst (SRem members (mkSt w set)) in
  snd (SRem members (mkSt w set)) = Ok (Z.of_nat (size (input ∩ before)))
  /\ member_set (world s') (self s') = before ∖ input
  /\ Len (meta (self s')) = Z.of_nat (size (before ∖ input)).
Proof.
  intros dkey before input Hh. healthy_world Hh w d m c u.
  intros He HLen Hmax Hmk Hclean.
  set (ms := RemoveRepByMap members).
  set (hit := filter (fun x => m !! setItemKey dkey x = Some SetNilValue) ms).
  assert (Hin : ∀ x, x ∈ before <-> is_Some (m !! setItemKey dkey x)).
  { intros x. unfold before. by rewrite elem_of_member_set. }
  assert (Hhit : ∀ x, x ∈ hit <-> x ∈ input /\ x ∈ before).
  { intros x. unfold hit, input. rewrite list_elem_of_filter, elem_of_list_to_set, Hin.
    unfold ms. rewrite elem_of_RemoveRepByMap. split.
    - intros [E Hx]. split; [done|]. by rewrite E.
    - intros [Hx [v Hv]]. split; [|done]. by rewrite Hv, (Hclean x v Hx Hv). }
  assert (HsetH : list_to_set hit = input ∩ before).
  { apply set_eq. intros x. by rewrite elem_of_list_to_set, elem_of_intersection, Hhit. }
  assert (Hsz : size (input ∩ before) = length hit).
  { rewrite <- HsetH. apply size_list_to_set, NoDup_filter, NoDup_RemoveRepByMap. }
  assert (Hsplit : size before = (size (before ∖ input) + size (input ∩ before))%nat).
  { rewrite <- size_union.
    - f_equal. apply set_eq. intros x.
      rewrite elem_of_union, elem_of_difference, elem_of_intersection.
      destruct (decide (x ∈ input)); tauto.
    - intros x. rewrite elem_of_difference, elem_of_intersection. tauto. }
  assert (Hnum : int64 (Z.of_nat (length hit)) = Z.of_nat (size (input ∩ before))).
  { rewrite Hsz. apply int64_small. unfold in_int64, min_int64, max_int64 in *. lia. }
  assert (Hlen' : int64 (Len (meta set) - Z.of_nat (size (input ∩ before)))
                  = Z.of_nat (size (before ∖ input))).
  { rewrite int64_small; [lia|]. unfold in_int64, min_int64, max_int64 in *. lia. }
  intros s'. unfold s'. rewrite SRem_run by done. fold dkey. fold ms. fold hit.
  rewrite Hnum, Hlen'. cbn [fst snd self world meta Len].
  split; [done|]. split; [|done].
  apply set_eq. intros x. rewrite elem_of_member_set, elem_of_difference.
  cbn [txn t hworld]. change (data_prefix _ _ ++ x) with (setItemKey dkey x).
  rewrite lookup_insert_ne.
  2:{ intros E. change (setItemKey dkey x) with (data_prefix (hworld d m c u) set ++ x) in E.
      rewrite E, HasPrefix_app in Hmk. done. }
  rewrite lookup_delete_keys, Hin.
  destruct (decide (setItemKey dkey x ∈ setItemKey dkey <$> hit)) as [Hd|Hd];
    rewrite elem_of_item_keys, Hhit in Hd.
  - split; [by intros [? ?]|]. tauto.
  - split; [|tauto]. intros Hs. split; [done|]. intros Hx. apply Hd. by rewrite Hin.
Qed.

(** X21.  [SRem] of members that are not in the set returns 0 and deletes
    nothing, and still rewrites the metadata record and sets the handle's
    last-update time to the current time. *)
Theorem SRem_of_non_members (members : list bytes) (w : World) (set : Set_) :
  let dkey := DataKey (db (txn w)) (ID (SetMeta_Object (meta set))) in
  healthy w ->
  exists_ set = true ->
  in_int64 (Len (meta set)) ->
  (∀ x, x ∈ members -> t (txn w) !! setItemKey dkey x = None) ->
  let s' := fst (SRem members (mkSt w set)) in
  snd (SRem members (mkSt w set)) = Ok 0
  /\ (∀ k, k ≠ MetaKey (db (txn w)) (key set) -> t (txn (world s')) !! k = t (txn w) !! k)
  /\ persisted (world s') (self s') = Some (encodeSetMeta (meta set))
  /\ Len (meta (self s')) = Len (meta set)
  /\ UpdatedAt (SetMeta_Object (meta (self s'))) = clock w.
Proof.
  intros dkey Hh. healthy_world Hh w d m c u. intros He HLen Habs.
  assert (Hhit : filter (fun x => m !! setItemKey dkey x = Some SetNilValue)
                        (RemoveRepByMap members) = []).
  { destruct (filter _ _) as [|x l] eqn:E; [done|].
    assert (Hx : x ∈ x :: l) by left. rewrite <- E in Hx.
    apply list_elem_of_filter in Hx as [Hs Hx]. rewrite elem_of_RemoveRepByMap in Hx.
    by rewrite (Habs x Hx) in Hs. }
  intros s'. unfold s'. rewrite SRem_run by done. fold dkey. rewrite Hhit.
  cbn [length Z.of_nat fmap list_fmap delete_keys foldl fst snd self world].
  change (int64 0) with 0. rewrite Z.sub_0_r, (int64_small _ HLen).
  split; [done|]. split; [|split; [|done]].
  - intros k Hk. cbn [txn t hworld]. by rewrite lookup_insert_ne.
  - unfold persisted. cbn [txn t db hworld key]. rewrite lookup_insert_eq.
    by destruct set as [[? ?] ? ?].
Qed.

(** X22.  After [SRem], on a store whose member keys hold the sentinel, no
    member of the list is a member of the set: [SIsmember] answers 0. *)
Theorem SRem_then_SIsmember (members : list bytes) (x : bytes) (w : World) (set : Set_) :
  let dkey := DataKey (db (txn w)) (ID (SetMeta_Object (meta set))) in
  healthy w ->
  exists_ set = true ->
  x ∈ members ->
  (∀ v, t (txn w) !! setItemKey dkey x = Some v -> v = SetNilValue) ->
  MetaKey (db (txn w)) (key set) ≠ setItemKey dkey x ->
  snd (SIsmember x (fst (SRem members (mkSt w set)))) = Ok 0.
Proof.
  intros dkey Hh. healthy_world Hh w d m c u. intros He Hx Hclean Hne.
  rewrite SRem_run by done. cbn [fst]. rewrite SIsmember_h by done.
  cbn [snd meta SetMeta_Object set_UpdatedAt ID]. fold dkey.
  rewrite lookup_insert_ne by done. rewrite lookup_delete_keys.
  destruct (decide _) as [Hd|Hd]; [done|].
  rewrite elem_of_item_keys, list_elem_of_filter, elem_of_RemoveRepByMap in Hd.
  destruct (m !! setItemKey dkey x) as [v|] eqn:E; [|done].
  exfalso. apply Hd. split; [|done]. by rewrite (Hclean v).
Qed.

End RemMore.

(** ** [SMembers] and the iterator *)

Section Members.
Context `{Collaborators}.

(** The loop of [SMembers] reads [n] keys when the count is non-zero during
    the first [n] rounds and the loop then runs out of keys or of count. *)
Lemma SMembers_loop_run (p : bytes) (ks : list bytes) :
  ∀ (n : nat) (count : Z) (members : list bytes) (w : World),
    healthy w ->
    Forall (fun k => HasPrefix k p = true) ks ->
    (n <= length ks)%nat ->
    (∀ j : nat, (j < n)%nat -> int64 (count - Z.of_nat j) ≠ 0) ->
    n = length ks \/ int64 (count - Z.of_nat n) = 0 ->
    int64 count = count ->
    SMembers_loop p ks count members w
    = (w, Ok (members ++ (drop (length p) <$> take n ks))).
Proof.
  induction ks as [|k ks IH]; intros n count members w Hh HP Hn Hnz Hend Hc.
  - destruct n; [|simpl in Hn; lia]. cbn. by rewrite app_nil_r.
  - apply Forall_cons in HP as [Hk HP]. cbn [SMembers_loop]. rewrite Hk.
    destruct n as [|n].
    + destruct Hend as [Hend|Hend]; [done|].
      rewrite Z.sub_0_r, Hc in Hend. subst count. cbn. by rewrite app_nil_r.
    + assert (Hc0 : count ≠ 0).
      { specialize (Hnz O ltac:(lia)). by rewrite Z.sub_0_r, Hc in Hnz. }
      destruct (Z.eqb_spec count 0) as [|_]; [done|]. cbn [andb negb].
      unfold bind, lift_result. rewrite (slice_from_prefix _ _ Hk).
      unfold iter_Next. rewrite Hh. cbn [fault_of].
      rewrite (IH n); try done.
      * cbn [take fmap list_fmap]. by rewrite <- app_assoc.
      * simpl in Hn. lia.
      * intros j Hj. rewrite <- Z.add_opp_r, int64_add_l.
        specialize (Hnz (S j) ltac:(lia)).
        by replace (count - 1 + - Z.of_nat j) with (count - Z.of_nat (S j)) by lia.
      * destruct Hend as [Hend|Hend]; [left; simpl in Hend; lia|right].
        rewrite <- Z.add_opp_r, int64_add_l.
        by replace (count - 1 + - Z.of_nat n) with (count - Z.of_nat (S n)) by lia.
      * apply int64_idem.
Qed.

(** [SMembers] on an existing set and a healthy store. *)
Lemma make_cap_ok_bounds (n : Z) :
  make_cap_ok slice_header_size n = true -> 0 <= n <= max_int64.
Proof.
  unfold make_cap_ok, slice_header_size, maxAlloc, max_int64.
  intros [H0 H1]%andb_true_iff. apply Z.leb_le in H0, H1. lia.
Qed.

Lemma SMembers_run (w : World) (set : Set_) :
  healthy w ->
  exists_ set = true ->
  make_cap_ok slice_header_size (Len (meta set)) = true ->
  SMembers (mkSt w set)
  = (mkSt w set, Ok (take (Z.to_nat (Len (meta set))) (members_of w set))).
Proof.
  intros Hh. healthy_world Hh w d m c u. intros He Hcap.
  pose proof (make_cap_ok_bounds _ Hcap) as HLen.
  unfold SMembers, Exists, bind, getSelf, liftW, get, ret.
  cbn [self world]. rewrite He. cbn [negb self world]. rewrite Hcap. cbn [negb].
  cbn [self world]. change (db (txn (hworld d m c u))) with d.
  rewrite txn_Iter_h, range_keys_prefix. cbn [self world].
  set (p := DataKey d (ID (SetMeta_Object (meta set))) ++ [58]).
  set (L := member_keys m p).
  rewrite (SMembers_loop_run p L (Nat.min (Z.to_nat (Len (meta set))) (length L))); try done.
  - cbn [app]. rewrite take_min_length. unfold members_of. by rewrite fmap_take.
  - apply Forall_forall. intros k Hk. by apply elem_of_member_keys in Hk as [? _].
  - lia.
  - intros j Hj. unfold max_int64 in *.
    rewrite int64_small by (unfold in_int64, min_int64, max_int64; lia). lia.
  - destruct (Nat.le_gt_cases (Z.to_nat (Len (meta set))) (length L)).
    + right. rewrite Nat.min_l by done. rewrite Z2Nat.id by lia. by rewrite Z.sub_diag.
    + left. lia.
  - apply int64_small. unfold in_int64, min_int64, max_int64 in *. lia.
Qed.

(** A [Len] that [make] refuses as a capacity, negative or too large,
    makes [SMembers] panic before the store is read. *)
Lemma SMembers_bad_Len (w : World) (set : Set_) :
  exists_ set = true ->
  make_cap_ok slice_header_size (Len (meta set)) = false ->
  SMembers (mkSt w set) = (mkSt w set, Panic).
Proof.
  intros He Hcap.
  unfold SMembers, Exists, bind, getSelf, liftW, get, ret, panic.
  cbn [self world]. rewrite He. cbn [negb self world]. by rewrite Hcap.
Qed.

(** X23.  On a store that does not fail, [SMembers] of an existing set
    changes nothing and, when [Len] is a capacity that [make] accepts
    (not negative, at most 2^48 / 24), returns the first [Len] members in
    the order of the store, all of them when [Len] is at least their
    number; for any other [Len] it panics. *)
Theorem SMembers_first_Len (w : World) (set : Set_) :
  healthy w ->
  exists_ set = true ->
  SMembers (mkSt w set)
  = (mkSt w set,
     if make_cap_ok slice_header_size (Len (meta set))
     then Ok (take (Z.to_nat (Len (meta set))) (members_of w set))
     else Panic).
Proof.
  intros Hh He.
  destruct (make_cap_ok slice_header_size (Len (meta set))) eqn:Hcap.
  - by apply SMembers_run.
  - by apply SMembers_bad_Len.
Qed.

(** X24.  When [Len] is the number of members, and a capacity that [make]
    accepts, [SMembers] returns every member once, in increasing byte
    order. *)
Theorem SMembers_all_sorted (w : World) (set : Set_) :
  healthy w ->
  exists_ set = true ->
  Len (meta set) = Z.of_nat (length (members_of w set)) ->
  make_cap_ok slice_header_size (Len (meta set)) = true ->
  ∃ l, SMembers (mkSt w set) = (mkSt w set, Ok l)
       /\ NoDup l
       /\ StronglySorted bytes_le l
       /\ ∀ x, x ∈ l <-> is_Some (t (txn w) !! (data_prefix w set ++ x)).
Proof.
  intros Hh He HLen Hmax. exists (members_of w set). split; [|split; [|split]].
  - rewrite SMembers_run by done.
    rewrite HLen, Nat2Z.id. by rewrite firstn_all.
  - apply NoDup_members_of.
  - apply StronglySorted_members_of.
  - apply elem_of_members_of.
Qed.

(** X25.  On a store that does not fail, [Set.Iter] returns an iterator over
    the member keys of the set and only them, in the order of the store;
    on each of them the iterator is valid and its value is the member. *)
Theorem Set_Iter_member_keys (w : World) (set : Set_) :
  healthy w ->
  ∃ siter,
    Set_Iter (mkSt w set) = (mkSt w set, Ok siter)
    /\ Prefix siter = data_prefix w set
    /\ SetIter_Iter siter = member_keys (t (txn w)) (data_prefix w set)
    /\ ∀ k rest, k ∈ SetIter_Iter siter ->
         SetIter_Valid (mkSetIter (k :: rest) (Prefix siter)) = true
         /\ ∃ x, SetIter_Value (mkSetIter (k :: rest) (Prefix siter)) = Ok x
                 /\ k = setItemKey (DataKey (db (txn w)) (ID (SetMeta_Object (meta set)))) x.
Proof.
  intros Hh. eexists. split; [|split; [|split]].
  - unfold Set_Iter, bind, getSelf, liftW, get, ret, txn_Iter.
    cbn [self world]. unfold healthy in Hh. rewrite Hh. cbn [fault_of self world].
    rewrite range_keys_prefix. reflexivity.
  - reflexivity.
  - reflexivity.
  - cbn [SetIter_Iter Prefix]. intros k rest [Hp _]%elem_of_member_keys.
    unfold SetIter_Valid, SetIter_Value, iter_Key. cbn [SetIter_Iter Prefix head default from_option id].
    rewrite Hp. split; [done|].
    eexists. split; [by apply slice_from_prefix|].
    exact (HasPrefix_inv _ _ Hp).
Qed.

End Members.

(** ** [SPop]: the invariant and failures *)

Section PopMore.
Context `{Collaborators}.

(** X26.  [SPop] keeps the cardinality invariant for every [int64] count,
    negative or not: when [Len] is the number of members before the call,
    it is the number of members after it. *)
Theorem SPop_keeps_Len_invariant (w : World) (set : Set_) (count : Z) :
  healthy w ->
  exists_ set = true ->
  Len (meta set) = Z.of_nat (length (members_of w set)) ->
  Len (meta set) <= max_int64 ->
  in_int64 count ->
  HasPrefix (MetaKey (db (txn w)) (key set)) (data_prefix w set) = false ->
  let s' := fst (SPop count (mkSt w set)) in
  Len (meta (self s')) = Z.of_nat (length (members_of (world s') (self s'))).
Proof.
  intros Hh. healthy_world Hh w d m c u. intros He HLen Hmax Hcount Hmk s'.
  unfold in_int64, min_int64, max_int64 in *.
  destruct (Z.eq_dec (Len (meta set)) 0) as [Hz|Hnz].
  - unfold s', SPop, Exists, bind, getSelf, ret. cbn [self]. rewrite He, Hz.
    cbn [negb orb Z.eqb fst self world]. by rewrite <- HLen.
  - set (k := length (members_of (hworld d m c u) set)) in *.
    set (n := if Z.ltb count 0 then k else Nat.min (Z.to_nat count) k).
    destruct (SPop_effect n count d m c u set)
      as (w' & set' & Hrun & Hmem & _ & _ & _ & Hset); try done.
    + unfold n. fold k. destruct (Z.ltb_spec count 0); lia.
    + intros j Hj. unfold n in Hj. destruct (Z.ltb_spec count 0).
      * rewrite int64_zero_iff. intros Hmod.
        apply Z.mod_divide in Hmod; [|lia]. destruct Hmod as [q Hq]. lia.
      * rewrite int64_small by (unfold in_int64, min_int64, max_int64; lia). lia.
    + unfold n. fold k. destruct (Z.ltb_spec count 0); [by left|].
      destruct (Nat.le_gt_cases (Z.to_nat count) k).
      * right. rewrite Nat.min_l by done. rewrite Z2Nat.id by lia. by rewrite Z.sub_diag.
      * left. lia.
    + apply int64_small. unfold in_int64, min_int64, max_int64. lia.
    + unfold s'. rewrite Hrun. cbn [fst self world]. rewrite Hmem, length_drop.
      rewrite Hset. cbn [meta Len]. fold k.
      assert (n <= k)%nat by (unfold n; destruct (Z.ltb_spec count 0); lia). lia.
Qed.

(** When the store fails to open the iterator, [SPop] of a non-empty
    existing set returns the error and changes nothing. *)
Lemma SPop_Iter_error (e : error) (count : Z) (s : St) :
  exists_ (self s) = true ->
  Len (meta (self s)) ≠ 0 ->
  fault_of (faults (txn (world s))) OpIter = Some e ->
  SPop count s = (s, Err e).
Proof.
  intros He Hnz Hf.
  unfold SPop, Exists, bind, getSelf, liftW, get, ret, txn_Iter.
  rewrite He. cbn [negb orb].
  destruct (Z.eqb_spec (Len (meta (self s))) 0) as [|_]; [done|].
  cbn [self world]. rewrite Hf. by destruct s.
Qed.

(** X27.  When the store fails to delete the first member key, [SPop] with
    a non-zero count returns the error; nothing is deleted, the metadata
    record is not written and the handle keeps its [Len]. *)
Theorem SPop_Delete_error (e : error) (count : Z) (k0 : bytes) (rest : list bytes)
    (w : World) (set : Set_) :
  exists_ set = true ->
  Len (meta set) ≠ 0 ->
  count ≠ 0 ->
  fault_of (faults (txn w)) OpIter = None ->
  member_keys (t (txn w)) (data_prefix w set) = k0 :: rest ->
  fault_of (faults (txn w)) (OpDelete k0) = Some e ->
  SPop count (mkSt w set) = (mkSt w set, Err e).
Proof.
  intros He Hnz Hc Hi HL Hf.
  assert (Hp : HasPrefix k0 (data_prefix w set) = true).
  { assert (Hin : k0 ∈ member_keys (t (txn w)) (data_prefix w set)) by (rewrite HL; left).
    by apply elem_of_member_keys in Hin as [? _]. }
  unfold SPop, Exists, bind, getSelf, liftW, get, ret, txn_Iter.
  cbn [self world]. rewrite He. cbn [negb orb].
  destruct (Z.eqb_spec (Len (meta set)) 0) as [|_]; [done|].
  cbn [self world]. rewrite Hi. cbn [self world].
  rewrite range_keys_prefix. fold (data_prefix w set). rewrite HL.
  cbn [SPop_loop]. rewrite Hp.
  destruct (Z.eqb_spec count 0) as [|_]; [done|]. cbn [andb negb].
  unfold bind, lift_result. rewrite (slice_from_prefix _ _ Hp).
  unfold txn_Delete. by rewrite Hf.
Qed.

End PopMore.

(** ** [SMove] between two sets *)

Section MoveMore.
Context `{Collaborators}.

(** X28.  [SMove] of a member that is not in the source returns 0 and
    changes neither the store nor the handle. *)
Theorem SMove_absent_member (destination member : bytes) (w : World) (set : Set_) :
  healthy w ->
  exists_ set = true ->
  t (txn w) !! setItemKey (DataKey (db (txn w)) (ID (SetMeta_Object (meta set)))) member
  = None ->
  SMove destination member (mkSt w set) = (mkSt w set, Ok 0).
Proof.
  intros Hh. healthy_world Hh w d m c u. intros He Hk.
  unfold SMove. unfold bind at 1. unfold Exists at 1, bind, getSelf, ret.
  cbn [self]. rewrite He. cbn [negb].
  rewrite (SIsmember_h member d m c u set He), Hk. reflexivity.
Qed.

(** The final state of [SAdd] of one member that is absent. *)
Lemma SAdd_one_absent (member : bytes) d m c u (set : Set_) :
  m !! setItemKey (DataKey d (ID (SetMeta_Object (meta set)))) member = None ->
  SAdd [member] (mkSt (hworld d m c u) set)
  = (mkSt (hworld d
             (<[MetaKey d (key set)
                := encodeSetMeta (mkSetMeta (SetMeta_Object (meta set))
                                            (int64 (Len (meta set) + 1)))]>
                (<[setItemKey (DataKey d (ID (SetMeta_Object (meta set)))) member
                   := SetNilValue]> m)) c u)
          (mkSet (mkSetMeta (set_UpdatedAt (SetMeta_Object (meta set)) c)
                            (int64 (Len (meta set) + 1))) (key set) true),
     Ok 1).
Proof.
  intros Hk. rewrite SAdd_run.
  rewrite (RemoveRepByMap_NoDup [member]) by apply NoDup_singleton.
  rewrite filter_cons_True by done. reflexivity.
Qed.

(** X29.  [SMove] to another existing set that does not hold the member,
    on a store that does not fail: the call returns 1, the member key of
    the source is deleted and the one of the destination holds the sentinel,
    and the persisted cardinalities are one less for the source and one more
    for the destination. *)
Theorem SMove_to_existing_set (destination member b : bytes) (dmeta : SetMeta)
    (w : World) (set : Set_) :
  let d := db (txn w) in
  let isrc := setItemKey (DataKey d (ID (SetMeta_Object (meta set)))) member in
  let idst := setItemKey (DataKey d (ID (SetMeta_Object dmeta))) member in
  let msrc := MetaKey d (key set) in
  let mdst := MetaKey d destination in
  healthy w ->
  exists_ set = true ->
  t (txn w) !! isrc = Some SetNilValue ->
  t (txn w) !! mdst = Some b ->
  DecodeSetMeta (Some b) = Ok dmeta ->
  Type_ (SetMeta_Object dmeta) = ObjectSet ->
  t (txn w) !! idst = None ->
  msrc ≠ mdst -> msrc ≠ isrc -> msrc ≠ idst -> mdst ≠ isrc -> mdst ≠ idst ->
  in_int64 (Len (meta set) - 1) ->
  in_int64 (Len dmeta + 1) ->
  let s' := fst (SMove destination member (mkSt w set)) in
  snd (SMove destination member (mkSt w set)) = Ok 1
  /\ t (txn (world s')) !! isrc = None
  /\ t (txn (world s')) !! idst = Some SetNilValue
  /\ t (txn (world s')) !! msrc
     = Some (encodeSetMeta (mkSetMeta (SetMeta_Object (meta set)) (Len (meta set) - 1)))
  /\ t (txn (world s')) !! mdst
     = Some (encodeSetMeta (mkSetMeta (SetMeta_Object dmeta) (Len dmeta + 1)))
  /\ Len (meta (self s')) = Len (meta set) - 1.
Proof.
  intros d0 isrc idst msrc mdst Hh. unfold d0 in *. clear d0.
  healthy_world Hh w d m c u.
  intros He Hsrc Hdst Hdec Hty Habs H1 H2 H3 H4 H5 Hl1 Hl2.
  assert (Hne : isrc ≠ idst) by (intros E; rewrite E, Habs in Hsrc; done).
  assert (Hrun : SMove destination member (mkSt (hworld d m c u) set)
    = (mkSt (hworld d
               (<[msrc := encodeSetMeta (mkSetMeta (SetMeta_Object (meta set))
                                                   (Len (meta set) - 1))]>
                  (delete isrc
                     (<[mdst := encodeSetMeta (mkSetMeta (SetMeta_Object dmeta)
                                                         (Len dmeta + 1))]>
                        (<[idst := SetNilValue]> m)))) c (S u))
            (mkSet (mkSetMeta (set_UpdatedAt (SetMeta_Object (meta set)) c)
                              (Len (meta set) - 1)) (key set) true),
       Ok 1)).
  { unfold SMove. unfold bind at 1. unfold Exists at 1, bind, getSelf, ret.
    cbn [self]. rewrite He. cbn [negb].
    rewrite (SIsmember_h member d m c u set He). fold isrc. rewrite Hsrc.
    rewrite bool_decide_eq_true_2 by done.
    cbn [Z.eqb]. unfold try, liftW. cbn [world self]. rewrite GetSet_h. fold mdst.
    rewrite Hdst, Hdec, Hty, Z.eqb_refl. unfold on_handle. cbn [world self].
    rewrite (SIsmember_h member d m c (S u)) by done.
    cbn [meta]. fold idst. rewrite Habs. cbn [Z.eqb world self].
    rewrite SAdd_one_absent by done. cbn [world self key meta].
    unfold liftW, get. cbn [world self].
    change (db (txn (hworld d ?x c (S u)))) with d. fold isrc idst mdst.
    rewrite txn_Delete_h. unfold setSelf. cbn [world self].
    rewrite updateMeta_h. cbn [set_Len meta key SetMeta_Object Len]. fold msrc.
    rewrite (int64_small _ Hl1), (int64_small _ Hl2). reflexivity. }
  cbv zeta. rewrite Hrun. cbn [fst snd self world txn t hworld meta Len].
  split; [done|]. split; [|split; [|split; [|split; [|done]]]].
  - rewrite lookup_insert_ne by done. by rewrite lookup_delete_eq.
  - rewrite lookup_insert_ne by done. rewrite lookup_delete_ne by done.
    rewrite lookup_insert_ne by done. by rewrite lookup_insert_eq.
  - by rewrite lookup_insert_eq.
  - rewrite lookup_insert_ne by done. rewrite lookup_delete_ne by done.
    by rewrite lookup_insert_eq.
Qed.

(** X30.  [SMove] to a logical key that has no record creates the
    destination: a new identifier is drawn, the member is stored under it,
    and the record persisted for the destination has [Len] 1. *)
Theorem SMove_to_new_set (destination member : bytes) (w : World) (set : Set_) :
  let d := db (txn w) in
  let dobj := mkObject (UUID_at (uuid_next w)) (clock w) (clock w) 0
                       ObjectSet ObjectEncodingHT in
  let isrc := setItemKey (DataKey d (ID (SetMeta_Object (meta set)))) member in
  let idst := setItemKey (DataKey d (UUID_at (uuid_next w))) member in
  let msrc := MetaKey d (key set) in
  let mdst := MetaKey d destination in
  healthy w ->
  exists_ set = true ->
  t (txn w) !! isrc = Some SetNilValue ->
  t (txn w) !! mdst = None ->
  t (txn w) !! idst = None ->
  msrc ≠ mdst -> msrc ≠ isrc -> msrc ≠ idst -> mdst ≠ isrc -> mdst ≠ idst ->
  in_int64 (Len (meta set) - 1) ->
  let s' := fst (SMove destination member (mkSt w set)) in
  snd (SMove destination member (mkSt w set)) = Ok 1
  /\ t (txn (world s')) !! isrc = None
  /\ t (txn (world s')) !! idst = Some SetNilValue
  /\ t (txn (world s')) !! msrc
     = Some (encodeSetMeta (mkSetMeta (SetMeta_Object (meta set)) (Len (meta set) - 1)))
  /\ t (txn (world s')) !! mdst = Some (encodeSetMeta (mkSetMeta dobj 1))
  /\ Len (meta (self s')) = Len (meta set) - 1.
Proof.
  intros d0 dobj isrc idst msrc mdst Hh. unfold d0 in *. clear d0.
  healthy_world Hh w d m c u.
  intros He Hsrc Hdst Habs H1 H2 H3 H4 H5 Hl1.
  assert (Hne : isrc ≠ idst) by (intros E; rewrite E, Habs in Hsrc; done).
  assert (Hrun : SMove destination member (mkSt (hworld d m c u) set)
    = (mkSt (hworld d
               (<[msrc := encodeSetMeta (mkSetMeta (SetMeta_Object (meta set))
                                                   (Len (meta set) - 1))]>
                  (delete isrc
                     (<[mdst := encodeSetMeta (mkSetMeta dobj 1)]>
                        (<[idst := SetNilValue]> m)))) c (S u))
            (mkSet (mkSetMeta (set_UpdatedAt (SetMeta_Object (meta set)) c)
                              (Len (meta set) - 1)) (key set) true),
       Ok 1)).
  { unfold SMove. unfold bind at 1. unfold Exists at 1, bind, getSelf, ret.
    cbn [self]. rewrite He. cbn [negb].
    rewrite (SIsmember_h member d m c u set He). fold isrc. rewrite Hsrc.
    rewrite bool_decide_eq_true_2 by done.
    cbn [Z.eqb]. unfold try, liftW. cbn [world self]. rewrite GetSet_h. fold mdst.
    rewrite Hdst. unfold on_handle, fresh_set. cbn [world self].
    unfold SIsmember at 1. unfold Exists, bind, getSelf, ret. cbn [self exists_ negb].
    cbn [Z.eqb world self].
    rewrite SAdd_one_absent by done. cbn [world self key meta SetMeta_Object ID Len].
    unfold liftW, get. cbn [world self].
    change (db (txn (hworld d ?x c (S u)))) with d. fold isrc idst mdst dobj.
    rewrite txn_Delete_h. unfold setSelf. cbn [world self].
    rewrite updateMeta_h. cbn [set_Len meta key SetMeta_Object Len]. fold msrc.
    rewrite (int64_small _ Hl1). reflexivity. }
  cbv zeta. rewrite Hrun. cbn [fst snd self world txn t hworld meta Len].
  split; [done|]. split; [|split; [|split; [|split; [|done]]]].
  - rewrite lookup_insert_ne by done. by rewrite lookup_delete_eq.
  - rewrite lookup_insert_ne by done. rewrite lookup_delete_ne by done.
    rewrite lookup_insert_ne by done. by rewrite lookup_insert_eq.
  - by rewrite lookup_insert_eq.
  - rewrite lookup_insert_ne by done. rewrite lookup_delete_ne by done.
    by rewrite lookup_insert_eq.
Qed.

End MoveMore.

(** * The further properties on the reference instance *)

Section Evaluations.
#[local] Existing Instance Ref.collaborators.
Import Demo.

Lemma SMove_absent_member_witness :
  SMove k_dst [98] (mkSt w_a (set0 1)) = (mkSt w_a (set0 1), Ok 0).
Proof.
  apply SMove_absent_member.
  - reflexivity.
  - reflexivity.
  - vm_compute. reflexivity.
Defined.

Lemma GetSet_missing_witness :
  snd (GetSet k_dst w_a)
  = Ok (mkSet (mkSetMeta (mkObject (UUID_at 0) 200 200 0 2 1) 0) k_dst false).
Proof.
  etransitivity.
  - apply (GetSet_missing k_dst w_a).
    + reflexivity.
    + vm_compute. reflexivity.
  - reflexivity.
Defined.

Lemma GetSet_type_mismatch_witness :
  snd (GetSet k_src (world_of store_other_type [])) = Err ErrTypeMismatch.
Proof.
  apply (GetSet_type_mismatch k_src
           (encodeSetMeta (mkSetMeta (mkObject id0 100 100 0 1 1) 1))
           (mkSetMeta (mkObject id0 100 100 0 1 1) 1)).
  - reflexivity.
  - vm_compute. reflexivity.
  - vm_compute. reflexivity.
  - vm_compute. discriminate.
Defined.

Lemma GetSet_loads_record_witness :
  snd (GetSet k_src w_a) = Ok (mkSet (mkSetMeta (obj0 0) 1) k_src true).
Proof.
  apply (GetSet_loads_record k_src (encodeSetMeta (mkSetMeta (obj0 0) 1))).
  - reflexivity.
  - vm_compute. reflexivity.
  - vm_compute. reflexivity.
  - reflexivity.
Defined.

Lemma GetSet_store_error_witness :
  snd (GetSet k_src
         (world_of store_a [(OpGet (MetaKey db0 k_src), ErrStore 1)]))
  = Err (ErrStore 1).
Proof.
  apply GetSet_store_error.
  - vm_compute. reflexivity.
  - discriminate.
Defined.

Lemma absent_set_operations_witness :
  SPop 1 (mkSt w_a set_new) = (mkSt w_a set_new, Ok []).
Proof.
  destruct (absent_set_operations (mkSt w_a set_new) [97] k_dst [[97]] 1)
    as (_ & _ & _ & Hpop & _).
  - reflexivity.
  - exact Hpop.
Defined.

Lemma SIsmember_outcomes_witness :
  SIsmember [97] (mkSt w_a (set0 1)) = (mkSt w_a (set0 1), Ok 1).
Proof.
  etransitivity.
  - apply SIsmember_outcomes; reflexivity.
  - vm_compute. reflexivity.
Defined.

Lemma SIsmember_store_error_witness :
  let w := world_of store_a [(OpGet (ikey [97]), ErrStore 1)] in
  SIsmember [97] (mkSt w (set0 1)) = (mkSt w (set0 1), Err (ErrStore 1)).
Proof.
  intros w. apply (SIsmember_store_error [97] (ErrStore 1) w (set0 1)).
  - reflexivity.
  - vm_compute. reflexivity.
Defined.

Lemma SAdd_keeps_Len_invariant_witness :
  let s' := fst (SAdd [[97]; [98]] (mkSt w_a (set0 1))) in
  Len (meta (self s')) = Z.of_nat (size (member_set (world s') (self s')))
  /\ exists_ (self s') = true
  /\ healthy (world s').
Proof.
  apply (SAdd_keeps_Len_invariant [[97]; [98]] w_a (set0 1)).
  - reflexivity.
  - vm_compute. reflexivity.
  - vm_compute. discriminate.
  - vm_compute. reflexivity.
Defined.

Lemma SAdd_then_SIsmember_witness :
  snd (SIsmember [98] (fst (SAdd [[97]; [98]] (mkSt w_a (set0 1))))) = Ok 1.
Proof.
  apply SAdd_then_SIsmember.
  - reflexivity.
  - apply list_elem_of_further, list_elem_of_here.
  - vm_compute. discriminate.
Defined.

Lemma SAdd_writes_only_its_keys_witness :
  t (txn (world (fst (SAdd [[98]] (mkSt w_a (set0 1)))))) !! ikey [97]
  = t (txn w_a) !! ikey [97].
Proof.
  apply SAdd_writes_only_its_keys.
  - reflexivity.
  - vm_compute. discriminate.
  - intros x Hx. apply list_elem_of_singleton in Hx. subst x. vm_compute. discriminate.
Defined.

Lemma SAdd_twice_witness :
  let s1 := fst (SAdd [[97]; [98]] (mkSt w_a (set0 1))) in
  let s2 := fst (SAdd [[97]; [98]] s1) in
  snd (SAdd [[97]; [98]] s1) = Ok 0
  /\ Len (meta (self s2)) = Len (meta (self s1))
  /\ member_set (world s2) (self s2) = member_set (world s1) (self s1).
Proof.
  apply (SAdd_twice [[97]; [98]] w_a (set0 1)).
  - reflexivity.
  - vm_compute. reflexivity.
  - vm_compute. discriminate.
  - vm_compute. reflexivity.
Defined.

Lemma updateMeta_write_error_witness :
  let w := world_of store_a [(OpSet (MetaKey db0 k_src), ErrStore 1)] in
  updateMeta (mkSt w set_new) = (mkSt w set_new, Err (ErrStore 1)).
Proof.
  intros w. apply (updateMeta_write_error (ErrStore 1) (mkSt w set_new)).
  vm_compute. reflexivity.
Defined.

Lemma updateMeta_then_GetSet_witness :
  snd (GetSet k_src (world (fst (updateMeta (mkSt w_a (set0 5))))))
  = Ok (mkSet (mkSetMeta (obj0 0) 5) k_src true).
Proof.
  apply (updateMeta_then_GetSet w_a (set0 5)).
  - reflexivity.
  - reflexivity.
  - vm_compute. reflexivity.
  - unfold in_int64, min_int64, max_int64. cbn. lia.
  - reflexivity.
Defined.

Lemma SAdd_write_error_witness :
  let w := world_of store_a [(OpSet (ikey [98]), ErrStore 1)] in
  let s' := fst (SAdd [[97]; [98]] (mkSt w (set0 1))) in
  (∃ e, snd (SAdd [[97]; [98]] (mkSt w (set0 1))) = Err e)
  /\ self s' = set0 1
  /\ t (txn (world s')) !! MetaKey db0 k_src
     = t (txn w) !! MetaKey db0 k_src.
Proof.
  intros w. apply (SAdd_write_error [[97]; [98]] [98] (ErrStore 1) w (set0 1)).
  - vm_compute. reflexivity.
  - apply list_elem_of_further, list_elem_of_here.
  - vm_compute. reflexivity.
  - intros y Hy. apply elem_of_cons in Hy as [->|Hy]; [vm_compute; discriminate|].
    apply list_elem_of_singleton in Hy. subst y. vm_compute. discriminate.
Defined.

Lemma SRem_removes_members_witness :
  let s' := fst (SRem [[97]; [120]; [97]] (mkSt w_abc (set0 3))) in
  snd (SRem [[97]; [120]; [97]] (mkSt w_abc (set0 3)))
  = Ok (Z.of_nat (size ((list_to_set [[97]; [120]; [97]] : gset bytes)
                        ∩ member_set w_abc (set0 3))))
  /\ member_set (world s') (self s')
     = member_set w_abc (set0 3) ∖ list_to_set [[97]; [120]; [97]]
  /\ Len (meta (self s'))
     = Z.of_nat (size (member_set w_abc (set0 3) ∖ list_to_set [[97]; [120]; [97]])).
Proof.
  apply (SRem_removes_members [[97]; [120]; [97]] w_abc (set0 3)).
  - reflexivity.
  - reflexivity.
  - vm_compute. reflexivity.
  - vm_compute. discriminate.
  - vm_compute. reflexivity.
  - intros x v Hx.
    repeat (apply elem_of_cons in Hx as [->|Hx];
            [vm_compute; intros Hv; by inversion Hv|]).
    by apply elem_of_nil in Hx.
Defined.

Lemma SRem_of_non_members_witness :
  let s' := fst (SRem [[120]] (mkSt w_a (set0 1))) in
  snd (SRem [[120]] (mkSt w_a (set0 1))) = Ok 0
  /\ (∀ k, k ≠ MetaKey db0 k_src -> t (txn (world s')) !! k = t (txn w_a) !! k)
  /\ persisted (world s') (self s') = Some (encodeSetMeta (meta (set0 1)))
  /\ Len (meta (self s')) = Len (meta (set0 1))
  /\ UpdatedAt (SetMeta_Object (meta (self s'))) = clock w_a.
Proof.
  apply (SRem_of_non_members [[120]] w_a (set0 1)).
  - reflexivity.
  - reflexivity.
  - unfold in_int64, min_int64, max_int64. cbn. lia.
  - intros x Hx. apply list_elem_of_singleton in Hx. subst x. vm_compute. reflexivity.
Defined.

Lemma SRem_then_SIsmember_witness :
  snd (SIsmember [97] (fst (SRem [[97]; [98]] (mkSt w_abc (set0 3))))) = Ok 0.
Proof.
  apply (SRem_then_SIsmember [[97]; [98]] [97] w_abc (set0 3)).
  - reflexivity.
  - reflexivity.
  - apply list_elem_of_here.
  - vm_compute. intros v Hv. by inversion Hv.
  - vm_compute. discriminate.
Defined.

Lemma SMembers_first_Len_witness :
  SMembers (mkSt w_abc (set0 2)) = (mkSt w_abc (set0 2), Ok [[97]; [98]])
  /\ SMembers (mkSt w_abc (set0 (2 ^ 62))) = (mkSt w_abc (set0 (2 ^ 62)), Panic).
Proof.
  split.
  - etransitivity.
    + apply (SMembers_first_Len w_abc (set0 2)); reflexivity.
    + vm_compute. reflexivity.
  - etransitivity.
    + apply (SMembers_first_Len w_abc (set0 (2 ^ 62))); reflexivity.
    + vm_compute. reflexivity.
Defined.

Lemma SMembers_all_sorted_witness :
  ∃ l, SMembers (mkSt w_abc (set0 3)) = (mkSt w_abc (set0 3), Ok l)
       /\ NoDup l
       /\ StronglySorted bytes_le l
       /\ ∀ x, x ∈ l <-> is_Some (t (txn w_abc) !! (data_prefix w_abc (set0 3) ++ x)).
Proof.
  apply (SMembers_all_sorted w_abc (set0 3)).
  - reflexivity.
  - reflexivity.
  - vm_compute. reflexivity.
  - reflexivity.
Defined.

Lemma Set_Iter_member_keys_witness :
  ∃ siter,
    Set_Iter (mkSt w_abc (set0 3)) = (mkSt w_abc (set0 3), Ok siter)
    /\ SetIter_Iter siter = [ikey [97]; ikey [98]; ikey [99]].
Proof.
  destruct (Set_Iter_member_keys w_abc (set0 3)) as (siter & Hrun & _ & Hkeys & _).
  - reflexivity.
  - exists siter. split; [exact Hrun|].
    etransitivity; [exact Hkeys|]. vm_compute. reflexivity.
Defined.

Lemma SPop_keeps_Len_invariant_witness :
  let s' := fst (SPop (-5) (mkSt w_abc (set0 3))) in
  Len (meta (self s')) = Z.of_nat (length (members_of (world s') (self s'))).
Proof.
  apply (SPop_keeps_Len_invariant w_abc (set0 3) (-5)).
  - reflexivity.
  - reflexivity.
  - vm_compute. reflexivity.
  - vm_compute. discriminate.
  - unfold in_int64, min_int64, max_int64. lia.
  - vm_compute. reflexivity.
Defined.

Lemma SPop_Delete_error_witness :
  let w := world_of store_abc [(OpDelete (ikey [97]), ErrStore 1)] in
  SPop 2 (mkSt w (set0 3)) = (mkSt w (set0 3), Err (ErrStore 1)).
Proof.
  intros w.
  apply (SPop_Delete_error (ErrStore 1) 2 (ikey [97]) [ikey [98]; ikey [99]] w (set0 3)).
  - reflexivity.
  - vm_compute. discriminate.
  - discriminate.
  - vm_compute. reflexivity.
  - vm_compute. reflexivity.
  - vm_compute. reflexivity.
Defined.

Lemma SMove_to_existing_set_witness :
  let w := world_of store_two [] in
  let s' := fst (SMove k_dst [97] (mkSt w (set0 1))) in
  snd (SMove k_dst [97] (mkSt w (set0 1))) = Ok 1
  /\ t (txn (world s')) !! ikey [97] = None
  /\ t (txn (world s')) !! ikey1 [97] = Some SetNilValue
  /\ t (txn (world s')) !! MetaKey db0 k_src
     = Some (encodeSetMeta (mkSetMeta (obj0 0) (1 - 1)))
  /\ t (txn (world s')) !! MetaKey db0 k_dst
     = Some (encodeSetMeta (mkSetMeta obj1 (1 + 1)))
  /\ Len (meta (self s')) = 1 - 1.
Proof.
  intros w.
  apply (SMove_to_existing_set k_dst [97] (encodeSetMeta (mkSetMeta obj1 1))
           (mkSetMeta obj1 1) w (set0 1)).
  - reflexivity.
  - reflexivity.
  - vm_compute. reflexivity.
  - vm_compute. reflexivity.
  - vm_compute. reflexivity.
  - reflexivity.
  - vm_compute. reflexivity.
  - vm_compute. discriminate.
  - vm_compute. discriminate.
  - vm_compute. discriminate.
  - vm_compute. discriminate.
  - vm_compute. discriminate.
  - unfold in_int64, min_int64, max_int64. cbn. lia.
  - unfold in_int64, min_int64, max_int64. cbn. lia.
Defined.

Lemma SMove_to_new_set_witness :
  let s' := fst (SMove k_dst [97] (mkSt w_a (set0 1))) in
  snd (SMove k_dst [97] (mkSt w_a (set0 1))) = Ok 1
  /\ t (txn (world s')) !! ikey [97] = None
  /\ t (txn (world s')) !! setItemKey (DataKey db0 (UUID_at (uuid_next w_a))) [97] = Some SetNilValue
  /\ t (txn (world s')) !! MetaKey db0 k_src
     = Some (encodeSetMeta (mkSetMeta (obj0 0) (1 - 1)))
  /\ t (txn (world s')) !! MetaKey db0 k_dst
     = Some (encodeSetMeta (mkSetMeta (mkObject (UUID_at (uuid_next w_a)) (clock w_a) (clock w_a) 0
                                               ObjectSet ObjectEncodingHT) 1))
  /\ Len (meta (self s')) = 1 - 1.
Proof.
  apply (SMove_to_new_set k_dst [97] w_a (set0 1)).
  - reflexivity.
  - reflexivity.
  - vm_compute. reflexivity.
  - vm_compute. reflexivity.
  - vm_compute. reflexivity.
  - vm_compute. discriminate.
  - vm_compute. discriminate.
  - vm_compute. discriminate.
  - vm_compute. discriminate.
  - vm_compute. discriminate.
  - unfold in_int64, min_int64, max_int64. cbn. lia.
Defined.

End Evaluations.
